(** * LexicographicalView: a 2-D view of a contiguous sequence

    Shallow embedding of [ql/Math/lexicographicalview.hpp].

    The class template is parameterised by a random-access iterator.  An
    iterator is modelled by the position it designates, an integer counted
    in elements.  Two integer types take part: the 32-bit [int] in which
    the class stores both dimensions and multiplies row indices, and the
    iterator's [difference_type], 64 bits wide as for pointers on the
    usual 64-bit platforms, in which the range length, its quotient and
    its remainder are computed.  Signed arithmetic is kept partial: a
    result that is not representable, or a division by zero, has no
    defined behaviour and is reported as such instead of being given a
    value.  Storing a [difference_type] into an [int] narrows it. *)

From Stdlib Require Import ZArith List Lia Bool String.
Import ListNotations.
Local Open Scope Z_scope.

(** ** Outcomes of a C++ evaluation *)

(** What [QL_REQUIRE] throws; the payload is the description string. *)
Inductive error : Type :=
| InvariantViolation (description : string).

(** The two ways in which integer arithmetic can leave defined behaviour. *)
Inductive undefined : Type :=
| DivisionByZero
| SignedOverflow.

Inductive outcome (A : Type) : Type :=
| Ok (a : A)
| Throw (e : error)
| Undefined (u : undefined).

Arguments Ok {A} a.
Arguments Throw {A} e.
Arguments Undefined {A} u.

Definition bind {A B : Type} (m : outcome A) (k : A -> outcome B) : outcome B :=
  match m with
  | Ok a => k a
  | Throw e => Throw e
  | Undefined u => Undefined u
  end.

Notation "x <- m ;; k" := (bind m (fun x => k))
  (at level 61, m at next level, right associativity).

Definition is_undefined {A : Type} (m : outcome A) : bool :=
  match m with Undefined _ => true | _ => false end.

(** ** The C++ [int] *)

Module Int.

Definition min : Z := - 2 ^ 31.
Definition max : Z := 2 ^ 31 - 1.

Definition representable (z : Z) : bool := (min <=? z) && (z <=? max).

(** The value of an arithmetic expression of type [int]. *)
Definition of_Z (z : Z) : outcome Z :=
  if representable z then Ok z else Undefined SignedOverflow.

Definition add (a b : Z) : outcome Z := of_Z (a + b).
Definition mul (a b : Z) : outcome Z := of_Z (a * b).

(** The conversion to [int] of a value of a wider integer type, as when
    a [difference_type] initialises an [int] member: the value modulo
    [2 ^ 32], on every two's complement implementation. *)
Definition narrow (z : Z) : Z := (z - min) mod 2 ^ 32 + min.

End Int.

(** ** The iterator's [difference_type] *)

Module Diff.

Definition min : Z := - 2 ^ 63.
Definition max : Z := 2 ^ 63 - 1.

Definition representable (z : Z) : bool := (min <=? z) && (z <=? max).

(** The value of an arithmetic expression of the difference type; an
    [int] operand is converted to it without change. *)
Definition of_Z (z : Z) : outcome Z :=
  if representable z then Ok z else Undefined SignedOverflow.

Definition mul (a b : Z) : outcome Z := of_Z (a * b).

(** [a / b]: truncation towards zero. *)
Definition div (a b : Z) : outcome Z :=
  if b =? 0 then Undefined DivisionByZero else of_Z (Z.quot a b).

(** [a % b]: the remainder of the truncating division. *)
Definition rem (a b : Z) : outcome Z :=
  if b =? 0 then Undefined DivisionByZero
  else if (a =? min) && (b =? -1) then Undefined SignedOverflow
  else Ok (Z.rem a b).

End Diff.

(** ** Random-access iterators into the underlying sequence *)

(** A position in the underlying sequence, counted in elements. *)
Definition position : Type := Z.

(** [it + n] for an iterator [it] and an integer [n]: the position [n]
    elements further.  Whether an element lies there is a matter for the
    dereference, see [read] below. *)
Definition it_plus (it : position) (n : Z) : position := it + n.

(** [a - b] for two iterators: a value of the difference type. *)
Definition it_minus (a b : position) : outcome Z := Diff.of_Z (a - b).

(** [e] is reachable from [b] by a non-negative advancement, that is by
    adding a non-negative value of the difference type. *)
Definition reachable (b e : position) : Prop := 0 <= e - b <= Diff.max.

(** ** The stepping iterator *)

(** Modelled from the spec: [Utilities::stepping_iterator], declared in
    [ql/Utilities/steppingiterator.hpp], is not part of the sources at hand.
    The spec's Strided Cursor wraps a single underlying position plus the
    step value. *)
Record stepping_iterator : Type := y_iterator {
  it_ : position;
  dx_ : Z
}.

Module Stepping.

(** Modelled from the spec: the increment of the missing
    [stepping_iterator] advances by the configured step. *)
Definition incr (c : stepping_iterator) : stepping_iterator :=
  y_iterator (it_plus (it_ c) (dx_ c)) (dx_ c).

(** Modelled from the spec: the decrement of the missing
    [stepping_iterator] goes back by the same step. *)
Definition decr (c : stepping_iterator) : stepping_iterator :=
  y_iterator (it_plus (it_ c) (- dx_ c)) (dx_ c).

(** Modelled from the spec: direct offset arithmetic of the missing
    [stepping_iterator], an advance by [k] steps; the offset [k * step]
    is a value of the difference type. *)
Definition plus (c : stepping_iterator) (k : Z) : outcome stepping_iterator :=
  n <- Diff.mul k (dx_ c) ;;
  Ok (y_iterator (it_plus (it_ c) n) (dx_ c)).

(** Modelled from the spec: distance computation of the missing
    [stepping_iterator], the difference in step units. *)
Definition minus (a b : stepping_iterator) : outcome Z :=
  d <- it_minus (it_ a) (it_ b) ;;
  Diff.div d (dx_ b).

(** Modelled from the spec: two cursors of the missing
    [stepping_iterator] type are equal when they wrap the same position
    with the same step. *)
Definition eqb (a b : stepping_iterator) : bool :=
  (it_ a =? it_ b) && (dx_ a =? dx_ b).

End Stepping.

(** ** The view *)

Record LexicographicalView : Type := mkView {
  begin_ : position;
  end_ : position;
  xSize_ : Z;
  ySize_ : Z
}.

(** Modelled from the spec: the macro [QL_REQUIRE] comes from a header that
    is not part of the sources at hand; the spec has the failed check raise
    an [InvariantViolation]. *)
Definition QL_REQUIRE (condition : bool) (description : string) : outcome unit :=
  if condition then Ok tt else Throw (InvariantViolation description).

Definition not_an_exact_divisor : string :=
  "The x size of the view is not an exact divisorof the size of the underlying sequence".

(** The constructor's member initialisers, in declaration order:
    [begin_(begin), end_(end), xSize_(xSize), ySize_((end-begin)/xSize)].
    The quotient is computed in the difference type and narrowed when it
    initialises the [int] member [ySize_]. *)
Definition member_initialisers (b e : position) (xSize : Z)
  : outcome LexicographicalView :=
  len <- it_minus e b ;;
  q <- Diff.div len xSize ;;
  Ok (mkView b e xSize (Int.narrow q)).

(** The constructor's body, which runs after the initialisers; its only
    statement is compiled when [QL_DEBUG] is defined. *)
Definition constructor_body (QL_DEBUG : bool) (this : LexicographicalView)
  : outcome unit :=
  if QL_DEBUG then
    len <- it_minus (end_ this) (begin_ this) ;;
    r <- Diff.rem len (xSize_ this) ;;
    QL_REQUIRE (r =? 0) not_an_exact_divisor
  else Ok tt.

Definition LexicographicalView_ctor (QL_DEBUG : bool)
    (b e : position) (xSize : Z) : outcome LexicographicalView :=
  this <- member_initialisers b e xSize ;;
  _ <- constructor_body QL_DEBUG this ;;
  Ok this.

Definition xbegin (v : LexicographicalView) (j : Z) : outcome position :=
  n <- Int.mul j (xSize_ v) ;;
  Ok (it_plus (begin_ v) n).

Definition xend (v : LexicographicalView) (j : Z) : outcome position :=
  j1 <- Int.add j 1 ;;
  n <- Int.mul j1 (xSize_ v) ;;
  Ok (it_plus (begin_ v) n).

Definition ybegin (v : LexicographicalView) (i : Z) : stepping_iterator :=
  y_iterator (it_plus (begin_ v) i) (xSize_ v).

Definition yend (v : LexicographicalView) (i : Z) : outcome stepping_iterator :=
  Stepping.plus (y_iterator (it_plus (begin_ v) i) (xSize_ v)) (ySize_ v).

Definition operator_index (v : LexicographicalView) (i : Z) : stepping_iterator :=
  y_iterator (it_plus (begin_ v) i) (xSize_ v).

Definition xSize (v : LexicographicalView) : Z := xSize_ v.
Definition ySize (v : LexicographicalView) : Z := ySize_ v.

(** ** The iterator interface used by traversals *)

(** What a loop [for (it = first; it != last; ++it) use(it);] needs of an
    iterator, plus the decrement that the reverse adaptor relies on.
    [target it] is the position of the element that [*it] designates. *)
Class Iterator (It : Type) : Type := {
  next : It -> It;
  prev : It -> It;
  same : It -> It -> bool;
  target : It -> position
}.

Class LawfulIterator (It : Type) `{Iterator It} : Prop := {
  prev_next : forall it : It, prev (next it) = it;
  next_prev : forall it : It, next (prev it) = it;
  same_iff : forall a b : It, same a b = true <-> a = b
}.

(** [x_iterator] is the underlying random-access iterator itself. *)
Definition x_iterator : Type := position.

#[export] Instance x_iterator_Iterator : Iterator x_iterator := {
  next it := it_plus it 1;
  prev it := it_plus it (-1);
  same a b := a =? b;
  target it := it
}.

#[export] Instance stepping_iterator_Iterator : Iterator stepping_iterator := {
  next := Stepping.incr;
  prev := Stepping.decr;
  same := Stepping.eqb;
  target c := it_ c
}.

(** Modelled from the spec: the macro [QL_REVERSE_ITERATOR] comes from a
    header that is not part of the sources at hand.  The spec's Reverse
    Cursor follows the standard reverse-iterator convention: it wraps a
    forward cursor, moves in the opposite direction, and dereferences to
    the element one step behind the wrapped forward position. *)
Record reverse_iterator (It : Type) : Type := Reverse {
  current : It
}.

Arguments Reverse {It} current.
Arguments current {It} r.

#[export] Instance reverse_iterator_Iterator (It : Type) `{Iterator It}
  : Iterator (reverse_iterator It) := {
  next r := Reverse (prev (current r));
  prev r := Reverse (next (current r));
  same a b := same (current a) (current b);
  target r := target (prev (current r))
}.

Definition reverse_x_iterator : Type := reverse_iterator x_iterator.
Definition reverse_y_iterator : Type := reverse_iterator stepping_iterator.

Definition rxbegin (v : LexicographicalView) (j : Z) : outcome reverse_x_iterator :=
  e <- xend v j ;;
  Ok (Reverse e).

Definition rxend (v : LexicographicalView) (j : Z) : outcome reverse_x_iterator :=
  b <- xbegin v j ;;
  Ok (Reverse b).

Definition rybegin (v : LexicographicalView) (i : Z) : outcome reverse_y_iterator :=
  e <- yend v i ;;
  Ok (Reverse e).

Definition ryend (v : LexicographicalView) (i : Z) : reverse_y_iterator :=
  Reverse (ybegin v i).

(** ** Traversal of a half-open range *)

(** The cursors that [for (it = first; it != last; ++it) use(it);]
    dereferences, in order.  The loop need not terminate when [last] is not
    ahead of [first]; [fuel] bounds the number of iterations. *)
Fixpoint traverse {It : Type} `{Iterator It} (fuel : nat) (it last : It)
  : option (list It) :=
  if same it last then Some []
  else match fuel with
       | O => None
       | S fuel' => option_map (cons it) (traverse fuel' (next it) last)
       end.

(** The positions dereferenced by the traversal. *)
Definition visits {It : Type} `{Iterator It} (fuel : nat) (first last : It)
  : option (list position) :=
  option_map (map target) (traverse fuel first last).

Section Elements.

Variable T : Type.

(** The underlying sequence; position [p] designates its [p]-th element. *)
Definition read (data : list T) (p : position) : option T :=
  if p <? 0 then None else nth_error data (Z.to_nat p).

Fixpoint values (data : list T) (ps : list position) : option (list T) :=
  match ps with
  | [] => Some []
  | p :: ps' =>
      match read data p, values data ps' with
      | Some x, Some xs => Some (x :: xs)
      | _, _ => None
      end
  end.

(** [*it] *)
Definition deref {It : Type} `{Iterator It} (data : list T) (it : It) : option T :=
  read data (target it).

(** The elements that a traversal of [[first, last)] yields. *)
Definition iterate {It : Type} `{Iterator It} (data : list T) (fuel : nat)
    (first last : It) : option (list T) :=
  match visits fuel first last with
  | Some ps => values data ps
  | None => None
  end.

End Elements.

Arguments read {T} data p.
Arguments values {T} data ps.
Arguments deref {T It _} data it.
Arguments iterate {T It _} data fuel first last.

(** ** The row-major layout, as the specification words it *)

(** The linear position of the logical element at row [j], column [i]. *)
Definition spec_cell (v : LexicographicalView) (i j : Z) : position :=
  begin_ v + j * xSize_ v + i.

Definition spec_row (v : LexicographicalView) (j : Z) : list position :=
  map (fun i => spec_cell v (Z.of_nat i) j) (seq 0 (Z.to_nat (xSize_ v))).

Definition spec_column (v : LexicographicalView) (i : Z) : list position :=
  map (fun j => spec_cell v i (Z.of_nat j)) (seq 0 (Z.to_nat (ySize_ v))).

(** ** Views that the constructor produces *)

(** [v] is attached to a contiguous range with a positive row length, an
    [int]. *)
Definition attached (v : LexicographicalView) : Prop :=
  exists (QL_DEBUG : bool) (b e : position) (xSize : Z),
    reachable b e /\ 0 < xSize <= Int.max /\
    LexicographicalView_ctor QL_DEBUG b e xSize = Ok v.

(** The underlying range of [v] lies within [data]. *)
Definition within {T : Type} (data : list T) (v : LexicographicalView) : Prop :=
  0 <= begin_ v /\ end_ v <= Z.of_nat (List.length data).

(** What every attached view satisfies. *)
Record view_invariant (v : LexicographicalView) : Prop := {
  inv_range : 0 <= end_ v - begin_ v <= Diff.max;
  inv_xSize : 0 < xSize_ v <= Int.max;
  inv_ySize : ySize_ v = Int.narrow (Z.quot (end_ v - begin_ v) (xSize_ v));
  inv_int : Int.min <= ySize_ v <= Int.max;
  inv_fit : 0 <= ySize_ v -> ySize_ v * xSize_ v <= end_ v - begin_ v
}.

(** ** A concrete sequence *)

(** The twelve-element sequence 0, 1, ..., 11. *)
Definition twelve : list Z := map Z.of_nat (seq 0 12).

(** ** Walking the whole grid and writing through a cursor *)

(** The positions dereferenced by the row-major double loop
    [for (j = j0; j < j0 + n; ++j)
       for (it = v.xbegin(j); it != v.xend(j); ++it) use(it);]. *)
Fixpoint rows_from (fuel : nat) (v : LexicographicalView) (j0 : Z) (n : nat)
  : option (list position) :=
  match n with
  | O => Some []
  | S n' =>
      match xbegin v j0, xend v j0 with
      | Ok xb, Ok xe =>
          match visits fuel xb xe, rows_from fuel v (j0 + 1) n' with
          | Some row, Some rest => Some (row ++ rest)
          | _, _ => None
          end
      | _, _ => None
      end
  end.

Section Assignment.

Variable T : Type.

Fixpoint update (data : list T) (n : nat) (x : T) : list T :=
  match data, n with
  | [], _ => []
  | _ :: rest, O => x :: rest
  | y :: rest, S n' => y :: update rest n' x
  end.

(** Storing [x] at position [p] of the underlying sequence; there is no
    element to store to outside of it. *)
Definition write (data : list T) (p : position) (x : T) : option (list T) :=
  if p <? 0 then None
  else if (Z.to_nat p <? List.length data)%nat then Some (update data (Z.to_nat p) x)
  else None.

(** [*it = x] *)
Definition assign {It : Type} `{Iterator It} (data : list T) (it : It) (x : T)
  : option (list T) :=
  write data (target it) x.

End Assignment.

Arguments update {T} data n x.
Arguments write {T} data p x.
Arguments assign {T It _} data it x.

(** * Properties *)

(** ** Integer arithmetic *)

Lemma representable_iff (z : Z) :
  Int.representable z = true <-> Int.min <= z <= Int.max.
Proof.
  unfold Int.representable.
  rewrite andb_true_iff, !Z.leb_le. tauto.
Qed.

Lemma of_Z_ok (z : Z) : Int.min <= z <= Int.max -> Int.of_Z z = Ok z.
Proof.
  intros Hz. unfold Int.of_Z.
  now rewrite (proj2 (representable_iff z) Hz).
Qed.

Lemma min_negative : Int.min < 0.
Proof. reflexivity. Qed.

Lemma mul_ok (a b : Z) : Int.min <= a * b <= Int.max -> Int.mul a b = Ok (a * b).
Proof. apply of_Z_ok. Qed.

Lemma add_ok (a b : Z) : Int.min <= a + b <= Int.max -> Int.add a b = Ok (a + b).
Proof. apply of_Z_ok. Qed.

(** Narrowing keeps a value that is an [int] already. *)
Lemma narrow_id (z : Z) : Int.min <= z <= Int.max -> Int.narrow z = z.
Proof.
  intros Hz. unfold Int.narrow.
  rewrite Z.mod_small; [lia|].
  unfold Int.min, Int.max in *. lia.
Qed.

Lemma narrow_range (z : Z) : Int.min <= Int.narrow z <= Int.max.
Proof.
  unfold Int.narrow.
  pose proof (Z.mod_pos_bound (z - Int.min) (2 ^ 32) ltac:(reflexivity)).
  unfold Int.min, Int.max in *. lia.
Qed.

(** Narrowing never increases a non-negative value. *)
Lemma narrow_le (z : Z) : 0 <= z -> Int.narrow z <= z.
Proof.
  intros Hz. unfold Int.narrow.
  pose proof min_negative.
  pose proof (Z.mod_le (z - Int.min) (2 ^ 32) ltac:(lia) ltac:(reflexivity)).
  lia.
Qed.

Lemma diff_representable_iff (z : Z) :
  Diff.representable z = true <-> Diff.min <= z <= Diff.max.
Proof.
  unfold Diff.representable.
  rewrite andb_true_iff, !Z.leb_le. tauto.
Qed.

Lemma diff_of_Z_ok (z : Z) : Diff.min <= z <= Diff.max -> Diff.of_Z z = Ok z.
Proof.
  intros Hz. unfold Diff.of_Z.
  now rewrite (proj2 (diff_representable_iff z) Hz).
Qed.

Lemma diff_min_negative : Diff.min < 0.
Proof. reflexivity. Qed.

Lemma it_minus_ok (a b : position) :
  Diff.min <= a - b <= Diff.max -> it_minus a b = Ok (a - b).
Proof. apply diff_of_Z_ok. Qed.

(** The product of two [int]s is a value of the difference type. *)
Lemma int_product_fits (a b : Z) :
  Int.min <= a <= Int.max -> Int.min <= b <= Int.max ->
  Diff.min <= a * b <= Diff.max.
Proof.
  unfold Int.min, Int.max, Diff.min, Diff.max. intros Ha Hb.
  change (2 ^ 31) with 2147483648 in *.
  change (2 ^ 63) with (2 * (2147483648 * 2147483648)).
  assert (0 <= (a + 2147483648) * (b + 2147483648)) by (apply Z.mul_nonneg_nonneg; lia).
  assert (0 <= (2147483648 - a) * (2147483648 - b)) by (apply Z.mul_nonneg_nonneg; lia).
  assert (0 <= (a + 2147483648) * (2147483648 - b)) by (apply Z.mul_nonneg_nonneg; lia).
  assert (0 <= (2147483648 - a) * (b + 2147483648)) by (apply Z.mul_nonneg_nonneg; lia).
  lia.
Qed.

Lemma diff_mul_ok (a b : Z) :
  Int.min <= a <= Int.max -> Int.min <= b <= Int.max ->
  Diff.mul a b = Ok (a * b).
Proof.
  intros Ha Hb. apply diff_of_Z_ok. now apply int_product_fits.
Qed.

(** Truncating division of a non-negative length by a positive row length. *)
Lemma quot_bounds (a b : Z) :
  0 <= a -> 0 < b ->
  0 <= Z.quot a b /\ Z.quot a b * b <= a < (Z.quot a b + 1) * b.
Proof.
  intros Ha Hb.
  rewrite Z.quot_div_nonneg by lia.
  pose proof (Z.div_mod a b ltac:(lia)) as E.
  pose proof (Z.mod_pos_bound a b Hb) as M.
  assert (0 <= a / b) by (apply Z.div_pos; lia).
  nia.
Qed.

Lemma quot_le (a b : Z) : 0 <= a -> 0 < b -> Z.quot a b <= a.
Proof.
  intros Ha Hb. destruct (quot_bounds a b Ha Hb) as [H0 [H1 _]]. nia.
Qed.

Lemma quot_exact (a b : Z) :
  0 <= a -> 0 < b -> Z.rem a b = 0 -> Z.quot a b * b = a.
Proof.
  intros Ha Hb Hr.
  pose proof (Z.quot_rem' a b) as E. lia.
Qed.

Lemma diff_div_ok (a b : Z) :
  0 <= a <= Diff.max -> 0 < b -> Diff.div a b = Ok (Z.quot a b).
Proof.
  intros Ha Hb. unfold Diff.div.
  destruct (Z.eqb_spec b 0) as [->|_]; [lia|].
  apply diff_of_Z_ok.
  destruct (quot_bounds a b) as [H0 _]; [lia | lia |].
  pose proof (quot_le a b ltac:(lia) Hb).
  pose proof diff_min_negative. lia.
Qed.

Lemma diff_rem_ok (a b : Z) : 0 < b -> Diff.rem a b = Ok (Z.rem a b).
Proof.
  intros Hb. unfold Diff.rem.
  destruct (Z.eqb_spec b 0) as [->|_]; [lia|].
  destruct (Z.eqb_spec b (-1)) as [->|_]; [lia|].
  now rewrite andb_false_r.
Qed.

(** ** The constructor *)

Lemma member_initialisers_ok (b e : position) (xs : Z) :
  reachable b e -> 0 < xs ->
  member_initialisers b e xs = Ok (mkView b e xs (Int.narrow (Z.quot (e - b) xs))).
Proof.
  intros Hr Hx. unfold member_initialisers, reachable in *.
  pose proof diff_min_negative.
  rewrite it_minus_ok by lia. cbn [bind].
  rewrite diff_div_ok by lia. reflexivity.
Qed.

Lemma constructor_body_debug (b e : position) (xs ys : Z) :
  reachable b e -> 0 < xs ->
  constructor_body true (mkView b e xs ys) =
  QL_REQUIRE (Z.rem (e - b) xs =? 0) not_an_exact_divisor.
Proof.
  intros Hr Hx. unfold constructor_body, reachable in *. cbn [end_ begin_ xSize_].
  pose proof diff_min_negative.
  rewrite it_minus_ok by lia. cbn [bind].
  rewrite diff_rem_ok by lia. reflexivity.
Qed.

Lemma ctor_unchecked (b e : position) (xs : Z) :
  reachable b e -> 0 < xs ->
  LexicographicalView_ctor false b e xs =
  Ok (mkView b e xs (Int.narrow (Z.quot (e - b) xs))).
Proof.
  intros Hr Hx. unfold LexicographicalView_ctor.
  now rewrite member_initialisers_ok.
Qed.

Lemma ctor_checked (b e : position) (xs : Z) :
  reachable b e -> 0 < xs ->
  LexicographicalView_ctor true b e xs =
  if Z.rem (e - b) xs =? 0
  then Ok (mkView b e xs (Int.narrow (Z.quot (e - b) xs)))
  else Throw (InvariantViolation not_an_exact_divisor).
Proof.
  intros Hr Hx. unfold LexicographicalView_ctor.
  rewrite member_initialisers_ok by assumption. cbn [bind].
  rewrite constructor_body_debug by assumption.
  now destruct (Z.rem (e - b) xs =? 0).
Qed.

Lemma ctor_result (QL_DEBUG : bool) (b e : position) (xs : Z) (v : LexicographicalView) :
  reachable b e -> 0 < xs ->
  LexicographicalView_ctor QL_DEBUG b e xs = Ok v ->
  v = mkView b e xs (Int.narrow (Z.quot (e - b) xs)).
Proof.
  intros Hr Hx. destruct QL_DEBUG.
  - rewrite ctor_checked by assumption.
    destruct (Z.rem (e - b) xs =? 0); [congruence | discriminate].
  - rewrite ctor_unchecked by assumption. congruence.
Qed.

(** A quotient that is an [int] is stored unchanged. *)
Lemma stored_quotient (a xs : Z) :
  0 <= a -> 0 < xs -> Z.quot a xs <= Int.max ->
  Int.narrow (Z.quot a xs) = Z.quot a xs.
Proof.
  intros Ha Hx Hq. apply narrow_id.
  destruct (quot_bounds a xs Ha Hx) as [H0 _].
  pose proof min_negative. lia.
Qed.

Lemma attached_invariant (v : LexicographicalView) : attached v -> view_invariant v.
Proof.
  intros (dbg & b & e & xs & Hr & Hx & Hc).
  apply ctor_result in Hc; [|assumption|lia]. subst v.
  destruct (quot_bounds (e - b) xs) as [H0 [H1 _]]; [apply Hr|lia|].
  constructor; cbn [begin_ end_ xSize_ ySize_]; auto.
  - apply narrow_range.
  - intros Hy. pose proof (narrow_le (Z.quot (e - b) xs) H0). nia.
Qed.

(** In a view over at most [Int.max] elements the stored [ySize] is the
    quotient itself. *)
Lemma small_view (v : LexicographicalView) :
  view_invariant v ->
  Z.quot (end_ v - begin_ v) (xSize_ v) <= Int.max ->
  ySize_ v = Z.quot (end_ v - begin_ v) (xSize_ v) /\ 0 <= ySize_ v.
Proof.
  intros [Hr Hx Hy _ _] Hq.
  rewrite Hy, stored_quotient by lia.
  split; [reflexivity|]. apply quot_bounds; lia.
Qed.

Lemma small_range_quotient (v : LexicographicalView) :
  view_invariant v -> end_ v - begin_ v <= Int.max ->
  Z.quot (end_ v - begin_ v) (xSize_ v) <= Int.max.
Proof.
  intros [Hr Hx _ _ _] Hs.
  pose proof (quot_le (end_ v - begin_ v) (xSize_ v)). lia.
Qed.

(** C2, as amended: for every construction from [b], [e] with [e]
    reachable from [b] and a row length [xs > 0], the stored [ySize] is the
    truncating quotient [(e - b) / xs] narrowed to [int]; it is that
    quotient itself whenever the quotient is at most [Int.max], and then,
    when [e - b] is an exact multiple of [xs], the construction yields a
    view in either build and [ySize * xs] is exactly [e - b]. *)
Theorem C2_ySize_is_truncating_quotient :
  forall (b e : position) (xs : Z),
    reachable b e -> 0 < xs ->
    LexicographicalView_ctor false b e xs =
    Ok (mkView b e xs (Int.narrow (Z.quot (e - b) xs))) /\
    (forall (QL_DEBUG : bool) (v : LexicographicalView),
        LexicographicalView_ctor QL_DEBUG b e xs = Ok v ->
        ySize v = Int.narrow (Z.quot (e - b) xs)) /\
    (Z.quot (e - b) xs <= Int.max ->
     LexicographicalView_ctor false b e xs = Ok (mkView b e xs (Z.quot (e - b) xs)) /\
     (forall (QL_DEBUG : bool) (v : LexicographicalView),
         LexicographicalView_ctor QL_DEBUG b e xs = Ok v ->
         ySize v = Z.quot (e - b) xs) /\
     (Z.rem (e - b) xs = 0 ->
      forall QL_DEBUG : bool,
        exists v, LexicographicalView_ctor QL_DEBUG b e xs = Ok v /\
                  ySize v = Z.quot (e - b) xs /\
                  ySize v * xs = e - b)).
Proof.
  intros b e xs Hr Hx.
  pose proof (ctor_unchecked b e xs Hr Hx) as Hplain.
  assert (Hany : forall dbg v, LexicographicalView_ctor dbg b e xs = Ok v ->
                               ySize v = Int.narrow (Z.quot (e - b) xs)).
  { intros dbg v Hv. apply ctor_result in Hv; [|assumption|assumption].
    now subst v. }
  split; [exact Hplain|]. split; [exact Hany|].
  intros Hq.
  pose proof (stored_quotient (e - b) xs (proj1 Hr) Hx Hq) as Hsame.
  split; [|split].
  - now rewrite Hplain, Hsame.
  - intros dbg v Hv. now rewrite (Hany dbg v Hv).
  - intros Hrem dbg. exists (mkView b e xs (Z.quot (e - b) xs)).
    split; [|split].
    + destruct dbg.
      * rewrite ctor_checked by assumption. now rewrite Hrem, Hsame.
      * now rewrite Hplain, Hsame.
    + reflexivity.
    + cbn. apply quot_exact; [apply Hr | lia | assumption].
Qed.

Lemma C2_ySize_is_truncating_quotient_witness :
  LexicographicalView_ctor false 0 12 5 = Ok (mkView 0 12 5 2) /\
  (exists v, LexicographicalView_ctor true 0 12 4 = Ok v /\ ySize v = 3 /\ ySize v * 4 = 12).
Proof.
  pose proof (C2_ySize_is_truncating_quotient 0 12 5
                ltac:(unfold reachable; vm_compute; split; discriminate)
                ltac:(reflexivity)) as [_ [_ H5]].
  pose proof (C2_ySize_is_truncating_quotient 0 12 4
                ltac:(unfold reachable; vm_compute; split; discriminate)
                ltac:(reflexivity)) as [_ [_ H4]].
  split.
  - apply H5. vm_compute. discriminate.
  - destruct (H4 ltac:(vm_compute; discriminate)) as [_ [_ Hexact]].
    exact (Hexact eq_refl true).
Defined.

(** C2 as first stated fails: a range of 2^31 elements with row length 1
    is valid and an exact multiple, the quotient is 2^31, and the stored
    [ySize] is -2^31. *)
Lemma C2_narrowed_quotient_counterexample :
  reachable 0 2147483648 /\ 0 < 1 /\
  Z.rem (2147483648 - 0) 1 = 0 /\
  LexicographicalView_ctor false 0 2147483648 1 =
  Ok (mkView 0 2147483648 1 (-2147483648)) /\
  LexicographicalView_ctor true 0 2147483648 1 =
  Ok (mkView 0 2147483648 1 (-2147483648)) /\
  ySize (mkView 0 2147483648 1 (-2147483648)) <> Z.quot (2147483648 - 0) 1.
Proof.
  unfold reachable. repeat split; vm_compute; congruence.
Qed.

(** C6, as amended: with the debug check compiled in, construction from a
    valid range and a positive row length throws [InvariantViolation]
    exactly when [(e - b) % xs <> 0], and then yields no view; otherwise
    it yields the view.  Without the check it always yields the view.  The
    stored [ySize] is the truncated quotient narrowed to [int], which is
    the truncated quotient itself whenever that is at most [Int.max]. *)
Theorem C6_construction_error_contract :
  forall (b e : position) (xs : Z),
    reachable b e -> 0 < xs ->
    ((exists err, LexicographicalView_ctor true b e xs = Throw err) <->
     Z.rem (e - b) xs <> 0) /\
    (Z.rem (e - b) xs <> 0 ->
     LexicographicalView_ctor true b e xs = Throw (InvariantViolation not_an_exact_divisor) /\
     forall v, LexicographicalView_ctor true b e xs <> Ok v) /\
    (Z.rem (e - b) xs = 0 ->
     LexicographicalView_ctor true b e xs =
     Ok (mkView b e xs (Int.narrow (Z.quot (e - b) xs)))) /\
    LexicographicalView_ctor false b e xs =
    Ok (mkView b e xs (Int.narrow (Z.quot (e - b) xs))) /\
    (Z.quot (e - b) xs <= Int.max ->
     Int.narrow (Z.quot (e - b) xs) = Z.quot (e - b) xs).
Proof.
  intros b e xs Hr Hx.
  rewrite (ctor_checked b e xs Hr) by lia.
  rewrite (ctor_unchecked b e xs Hr) by lia.
  assert (Hsame : Z.quot (e - b) xs <= Int.max ->
                  Int.narrow (Z.quot (e - b) xs) = Z.quot (e - b) xs).
  { intros Hq. apply stored_quotient; [apply Hr | assumption | assumption]. }
  destruct (Z.eqb_spec (Z.rem (e - b) xs) 0) as [E|E].
  - split; [|split; [|split; [|split]]].
    + split; [intros [err Herr]; discriminate | intros Hn; contradiction].
    + intros Hn. contradiction.
    + reflexivity.
    + reflexivity.
    + exact Hsame.
  - split; [|split; [|split; [|split]]].
    + split; [intros _; assumption | intros _; eauto].
    + intros _. split; [reflexivity | discriminate].
    + intros Hz. contradiction.
    + reflexivity.
    + exact Hsame.
Qed.

Lemma C6_construction_error_contract_witness :
  LexicographicalView_ctor true 0 12 5 = Throw (InvariantViolation not_an_exact_divisor) /\
  LexicographicalView_ctor true 0 12 4 = Ok (mkView 0 12 4 3) /\
  LexicographicalView_ctor false 0 12 5 = Ok (mkView 0 12 5 2).
Proof.
  pose proof (C6_construction_error_contract 0 12 5
                ltac:(unfold reachable; vm_compute; split; discriminate)
                ltac:(reflexivity))
    as [_ [Hbad [_ [Hoff _]]]].
  pose proof (C6_construction_error_contract 0 12 4
                ltac:(unfold reachable; vm_compute; split; discriminate)
                ltac:(reflexivity))
    as [_ [_ [Hgood _]]].
  split; [|split].
  - apply Hbad. vm_compute. discriminate.
  - exact (Hgood eq_refl).
  - exact Hoff.
Defined.

(** C6 as first stated fails in its last part: without the check, a range
    of 2^31 elements with row length 1 yields a view whose [ySize] is
    -2^31 and not the truncated quotient 2^31. *)
Lemma C6_unchecked_quotient_counterexample :
  reachable 0 2147483648 /\ 0 < 1 /\
  (exists v : LexicographicalView,
      LexicographicalView_ctor false 0 2147483648 1 = Ok v /\
      ySize v = -2147483648 /\
      ySize v <> Z.quot (2147483648 - 0) 1).
Proof.
  unfold reachable. split; [vm_compute; split; discriminate|].
  split; [reflexivity|].
  exists (mkView 0 2147483648 1 (-2147483648)).
  repeat split; vm_compute; congruence.
Qed.

(** C10: the initialiser of [ySize_] divides by the row length before the
    body's check can run, so with a row length of zero construction leaves
    defined behaviour in either build: it neither throws nor yields a view;
    for a valid range the fault is the division by zero of the initialiser,
    and the check of the body would itself take a remainder by zero.  With
    a positive row length construction is total: it yields a view or
    throws. *)
Theorem C10_zero_row_length_divides_by_zero :
  (forall (QL_DEBUG : bool) (b e : position),
      is_undefined (LexicographicalView_ctor QL_DEBUG b e 0) = true) /\
  (forall (QL_DEBUG : bool) (b e : position),
      reachable b e ->
      member_initialisers b e 0 = Undefined DivisionByZero /\
      LexicographicalView_ctor QL_DEBUG b e 0 = Undefined DivisionByZero /\
      forall ys, constructor_body true (mkView b e 0 ys) = Undefined DivisionByZero) /\
  (forall (QL_DEBUG : bool) (b e : position) (xs : Z),
      reachable b e -> 0 < xs ->
      is_undefined (LexicographicalView_ctor QL_DEBUG b e xs) = false /\
      ((exists v, LexicographicalView_ctor QL_DEBUG b e xs = Ok v) \/
       (exists err, LexicographicalView_ctor QL_DEBUG b e xs = Throw err))).
Proof.
  split; [|split].
  - intros dbg b e. unfold LexicographicalView_ctor, member_initialisers, it_minus, Diff.of_Z.
    destruct (Diff.representable (e - b)); reflexivity.
  - intros dbg b e Hr. unfold reachable in Hr. pose proof diff_min_negative.
    assert (Hi : member_initialisers b e 0 = Undefined DivisionByZero).
    { unfold member_initialisers. rewrite it_minus_ok by lia. reflexivity. }
    split; [exact Hi | split].
    + unfold LexicographicalView_ctor. now rewrite Hi.
    + intros ys. unfold constructor_body. cbn [end_ begin_ xSize_].
      rewrite it_minus_ok by lia. reflexivity.
  - intros dbg b e xs Hr Hx. destruct dbg.
    + rewrite ctor_checked by (assumption || lia).
      destruct (Z.rem (e - b) xs =? 0); split; eauto.
    + rewrite ctor_unchecked by (assumption || lia). split; eauto.
Qed.

Lemma C10_zero_row_length_divides_by_zero_witness :
  LexicographicalView_ctor true 0 12 0 = Undefined DivisionByZero /\
  is_undefined (LexicographicalView_ctor true 0 12 5) = false.
Proof.
  destruct C10_zero_row_length_divides_by_zero as [_ [Hzero Hpos]].
  split.
  - apply (Hzero true 0 12). unfold reachable. vm_compute. split; discriminate.
  - apply (Hpos true 0 12 5).
    + unfold reachable. vm_compute. split; discriminate.
    + reflexivity.
Defined.

(** ** Stepping through rows and columns *)

Lemma iter_next_x (n : nat) (p : x_iterator) :
  Nat.iter n next p = p + Z.of_nat n.
Proof.
  induction n as [|n IH].
  - cbn. lia.
  - rewrite Nat.iter_succ, IH. cbn. unfold it_plus. lia.
Qed.

Lemma iter_next_y (n : nat) (c : stepping_iterator) :
  Nat.iter n next c = y_iterator (it_ c + Z.of_nat n * dx_ c) (dx_ c).
Proof.
  induction n as [|n IH].
  - destruct c as [p d]. cbn [Nat.iter nat_rect it_ dx_]. f_equal. lia.
  - rewrite Nat.iter_succ, IH. unfold next; cbn [stepping_iterator_Iterator].
    unfold Stepping.incr, it_plus. cbn [it_ dx_]. f_equal. lia.
Qed.

Lemma iter_prev_y (n : nat) (c : stepping_iterator) :
  Nat.iter n prev c = y_iterator (it_ c - Z.of_nat n * dx_ c) (dx_ c).
Proof.
  induction n as [|n IH].
  - destruct c as [p d]. cbn [Nat.iter nat_rect it_ dx_]. f_equal. lia.
  - rewrite Nat.iter_succ, IH. unfold prev; cbn [stepping_iterator_Iterator].
    unfold Stepping.decr, it_plus. cbn [it_ dx_]. f_equal. lia.
Qed.

Lemma offset_bounds (a b c m : Z) :
  0 <= a <= b -> 0 < c -> b * c <= m -> 0 <= a * c <= m.
Proof.
  intros Ha Hc Hm.
  assert (a * c <= b * c) by (apply Z.mul_le_mono_nonneg_r; lia).
  assert (0 <= a * c) by (apply Z.mul_nonneg_nonneg; lia).
  lia.
Qed.

Lemma xbegin_ok (v : LexicographicalView) (j : Z) :
  0 < xSize_ v -> 0 <= j -> j * xSize_ v <= Int.max ->
  xbegin v j = Ok (begin_ v + j * xSize_ v).
Proof.
  intros Hx Hj Hfit. unfold xbegin.
  pose proof min_negative.
  assert (0 <= j * xSize_ v) by (apply Z.mul_nonneg_nonneg; lia).
  rewrite mul_ok by lia. reflexivity.
Qed.

Lemma xbegin_inv (v : LexicographicalView) (j : Z) (xb : position) :
  xbegin v j = Ok xb -> xb = begin_ v + j * xSize_ v.
Proof.
  unfold xbegin, Int.mul, Int.of_Z.
  destruct (Int.representable (j * xSize_ v)); [|discriminate].
  cbn [bind]. unfold it_plus. congruence.
Qed.

Lemma xend_ok (v : LexicographicalView) (j : Z) :
  0 < xSize_ v -> 0 <= j -> (j + 1) * xSize_ v <= Int.max ->
  xend v j = Ok (begin_ v + (j + 1) * xSize_ v).
Proof.
  intros Hx Hj Hfit. unfold xend.
  pose proof min_negative.
  pose proof (offset_bounds (j + 1) (j + 1) (xSize_ v) Int.max).
  assert (j + 1 <= (j + 1) * xSize_ v) by nia.
  rewrite add_ok by lia. cbn [bind].
  rewrite mul_ok by lia. reflexivity.
Qed.

(** An in-range row of a view over at most [Int.max] elements has
    representable offsets. *)
Lemma row_offsets_fit (v : LexicographicalView) (j : Z) :
  view_invariant v -> 0 <= j < ySize_ v ->
  end_ v - begin_ v <= Int.max ->
  j * xSize_ v <= Int.max /\ (j + 1) * xSize_ v <= Int.max.
Proof.
  intros [Hr Hx _ _ Hfit] Hj Hs.
  pose proof (Hfit ltac:(lia)).
  pose proof (offset_bounds (j + 1) (ySize_ v) (xSize_ v) (end_ v - begin_ v)).
  pose proof (offset_bounds j (ySize_ v) (xSize_ v) (end_ v - begin_ v)).
  lia.
Qed.

Lemma yend_ok (v : LexicographicalView) (i : Z) :
  view_invariant v ->
  yend v i = Ok (y_iterator (begin_ v + i + ySize_ v * xSize_ v) (xSize_ v)).
Proof.
  intros [_ Hx _ Hy _]. unfold yend, Stepping.plus. cbn [dx_ it_].
  pose proof min_negative.
  rewrite diff_mul_ok by lia. reflexivity.
Qed.

Lemma attached_twelve_by_four : attached (mkView 0 12 4 3).
Proof.
  exists false, 0, 12, 4. unfold reachable.
  repeat split; vm_compute; congruence.
Qed.

(** C3, as amended: for every attached view and every row index [j] in
    [[0, ySize)] whose end offset [(j + 1) * xSize] is at most [Int.max],
    [xbegin j] is the position [begin + j * xSize], [xend j] is
    [begin + (j + 1) * xSize], and the distance from the former to the
    latter is [xSize]; the offset is that small for every in-range row of
    a view over at most [Int.max] elements. *)
Theorem C3_row_bounds :
  forall (v : LexicographicalView) (j : Z),
    attached v -> 0 <= j < ySize v ->
    ((j + 1) * xSize v <= Int.max ->
     xbegin v j = Ok (begin_ v + j * xSize v) /\
     xend v j = Ok (begin_ v + (j + 1) * xSize v) /\
     it_minus (begin_ v + (j + 1) * xSize v) (begin_ v + j * xSize v) = Ok (xSize v)) /\
    (end_ v - begin_ v <= Int.max -> (j + 1) * xSize v <= Int.max).
Proof.
  intros v j Ha Hj. apply attached_invariant in Ha. unfold xSize, ySize in *.
  pose proof Ha as [Hr Hx _ _ _].
  split.
  - intros Hfit. split; [|split].
    + apply xbegin_ok; nia.
    + apply xend_ok; lia.
    + pose proof diff_min_negative.
      assert (Int.max <= Diff.max) by (vm_compute; discriminate).
      replace (xSize_ v)
        with (begin_ v + (j + 1) * xSize_ v - (begin_ v + j * xSize_ v)) at 3 by lia.
      apply it_minus_ok. lia.
  - intros Hs. now apply row_offsets_fit.
Qed.

Lemma C3_row_bounds_witness :
  xbegin (mkView 0 12 4 3) 1 = Ok 4 /\
  xend (mkView 0 12 4 3) 1 = Ok 8 /\
  it_minus 8 4 = Ok 4.
Proof.
  destruct (C3_row_bounds (mkView 0 12 4 3) 1 attached_twelve_by_four
              ltac:(vm_compute; split; [discriminate | reflexivity]))
    as [Hrow Hfit].
  apply Hrow, Hfit. vm_compute. discriminate.
Defined.

Lemma attached_two_to_the_31_by_two : attached (mkView 0 2147483648 2 1073741824).
Proof.
  exists false, 0, 2147483648, 2. unfold reachable.
  repeat split; vm_compute; congruence.
Qed.

(** C3 as first stated fails: in the view of a range of 2^31 elements
    with row length 2, the last row is in range and its [xend] multiplies
    2^30 by 2 in [int]. *)
Lemma C3_last_row_overflows_counterexample :
  attached (mkView 0 2147483648 2 1073741824) /\
  0 <= 1073741823 < ySize (mkView 0 2147483648 2 1073741824) /\
  xend (mkView 0 2147483648 2 1073741824) 1073741823 = Undefined SignedOverflow.
Proof.
  split; [exact attached_two_to_the_31_by_two|].
  repeat split; vm_compute; congruence.
Qed.

(** C4: for every attached view and every column index [i] in
    [[0, xSize)], [ybegin i] wraps [begin + i] with step [xSize], [yend i]
    is that cursor advanced by [ySize] steps (by offset arithmetic, and
    equally by [ySize] increments, or by [- ySize] decrements should the
    stored [ySize] be negative), and the distance in step units from
    [ybegin i] to [yend i] is [ySize]. *)
Theorem C4_column_bounds :
  forall (v : LexicographicalView) (i : Z),
    attached v -> 0 <= i < xSize v ->
    ybegin v i = y_iterator (begin_ v + i) (xSize v) /\
    exists ye : stepping_iterator,
      yend v i = Ok ye /\
      Stepping.plus (ybegin v i) (ySize v) = Ok ye /\
      (0 <= ySize v -> Nat.iter (Z.to_nat (ySize v)) next (ybegin v i) = ye) /\
      (ySize v <= 0 -> Nat.iter (Z.to_nat (- ySize v)) prev (ybegin v i) = ye) /\
      Stepping.minus ye (ybegin v i) = Ok (ySize v).
Proof.
  intros v i Ha Hi. apply attached_invariant in Ha. unfold xSize, ySize in *.
  split; [reflexivity|].
  exists (y_iterator (begin_ v + i + ySize_ v * xSize_ v) (xSize_ v)).
  pose proof (yend_ok v i Ha) as Hy.
  destruct Ha as [Hr Hx Hq Hint Hfit]. pose proof min_negative.
  split; [exact Hy | split; [exact Hy | split; [|split]]].
  - intros Hpos. rewrite iter_next_y. unfold ybegin, it_plus. cbn [it_ dx_].
    rewrite Z2Nat.id by lia. reflexivity.
  - intros Hneg. rewrite iter_prev_y. unfold ybegin, it_plus. cbn [it_ dx_].
    rewrite Z2Nat.id by lia. f_equal. lia.
  - unfold Stepping.minus, ybegin, it_plus. cbn [it_ dx_].
    assert (E : begin_ v + i + ySize_ v * xSize_ v - (begin_ v + i)
                = ySize_ v * xSize_ v) by lia.
    rewrite it_minus_ok by (rewrite E; apply int_product_fits; lia).
    cbn [bind]. rewrite E.
    unfold Diff.div. destruct (Z.eqb_spec (xSize_ v) 0); [lia|].
    rewrite Z.quot_mul by lia.
    apply diff_of_Z_ok.
    assert (Diff.min <= Int.min) by (vm_compute; discriminate).
    assert (Int.max <= Diff.max) by (vm_compute; discriminate).
    lia.
Qed.

Lemma C4_column_bounds_witness :
  ybegin (mkView 0 12 4 3) 2 = y_iterator 2 4 /\
  exists ye : stepping_iterator,
    yend (mkView 0 12 4 3) 2 = Ok ye /\
    Stepping.plus (ybegin (mkView 0 12 4 3) 2) 3 = Ok ye /\
    Nat.iter 3 next (ybegin (mkView 0 12 4 3) 2) = ye /\
    Stepping.minus ye (ybegin (mkView 0 12 4 3) 2) = Ok 3.
Proof.
  destruct (C4_column_bounds (mkView 0 12 4 3) 2 attached_twelve_by_four
              ltac:(vm_compute; split; [discriminate | reflexivity]))
    as (Hb & ye & He & Hplus & Hnext & _ & Hminus).
  split; [exact Hb|]. exists ye.
  split; [exact He|]. split; [exact Hplus|].
  split; [apply Hnext; discriminate | exact Hminus].
Defined.

(** C7: for every view and every column index [i], [view[i]] is the very
    cursor that [ybegin i] returns: it wraps the position [begin + i] and
    its step is [xSize]. *)
Theorem C7_index_is_ybegin :
  forall (v : LexicographicalView) (i : Z),
    operator_index v i = ybegin v i /\
    it_ (operator_index v i) = begin_ v + i /\
    dx_ (operator_index v i) = xSize v /\
    Stepping.eqb (operator_index v i) (ybegin v i) = true.
Proof.
  intros v i. repeat split.
  unfold Stepping.eqb. now rewrite !Z.eqb_refl.
Qed.

(** C1, as amended: for every attached view and every in-range pair
    [(i, j)] whose row offset [j * xSize] is at most [Int.max], the
    position reached from [xbegin j] by [i] single-element increments is
    the position reached from [ybegin i] by [j] strided increments, namely
    [begin + j * xSize + i]; offset arithmetic reaches the same position,
    and both cursors dereference to the same element of any underlying
    sequence.  The offset is that small for every in-range pair of a view
    over at most [Int.max] elements. *)
Theorem C1_round_trip_addressing :
  forall (v : LexicographicalView) (i j : Z),
    attached v -> 0 <= i < xSize v -> 0 <= j < ySize v ->
    (j * xSize v <= Int.max ->
     exists xb : x_iterator,
       xbegin v j = Ok xb /\
       target (Nat.iter (Z.to_nat i) next xb) = begin_ v + j * xSize v + i /\
       target (Nat.iter (Z.to_nat j) next (ybegin v i)) = begin_ v + j * xSize v + i /\
       it_plus xb i = begin_ v + j * xSize v + i /\
       (exists c, Stepping.plus (ybegin v i) j = Ok c /\
                  it_ c = begin_ v + j * xSize v + i) /\
       forall (T : Type) (data : list T),
         deref data (Nat.iter (Z.to_nat i) next xb) =
         deref data (Nat.iter (Z.to_nat j) next (ybegin v i))) /\
    (end_ v - begin_ v <= Int.max -> j * xSize v <= Int.max).
Proof.
  intros v i j Ha Hi Hj. apply attached_invariant in Ha. unfold xSize, ySize in *.
  split; [|intros Hs; now apply row_offsets_fit].
  intros Hfit.
  exists (begin_ v + j * xSize_ v).
  assert (Hx : target (Nat.iter (Z.to_nat i) next (begin_ v + j * xSize_ v : x_iterator))
               = begin_ v + j * xSize_ v + i).
  { rewrite iter_next_x. cbn. rewrite Z2Nat.id by lia. reflexivity. }
  assert (Hy : target (Nat.iter (Z.to_nat j) next (ybegin v i))
               = begin_ v + j * xSize_ v + i).
  { rewrite iter_next_y. unfold ybegin, it_plus. cbn. rewrite Z2Nat.id by lia. lia. }
  destruct Ha as [Hr Hxs Hq Hint _].
  split; [apply xbegin_ok; lia|].
  split; [exact Hx|]. split; [exact Hy|].
  split; [reflexivity|]. split.
  - exists (y_iterator (begin_ v + i + j * xSize_ v) (xSize_ v)).
    pose proof min_negative.
    unfold Stepping.plus, ybegin, it_plus. cbn [it_ dx_].
    rewrite diff_mul_ok by lia. split; [reflexivity | cbn; lia].
  - intros T data. unfold deref. now rewrite Hx, Hy.
Qed.

Lemma C1_round_trip_addressing_witness :
  exists xb : x_iterator,
    xbegin (mkView 0 12 4 3) 1 = Ok xb /\
    target (Nat.iter 2 next xb) = 6 /\
    target (Nat.iter 1 next (ybegin (mkView 0 12 4 3) 2)) = 6 /\
    it_plus xb 2 = 6 /\
    (exists c, Stepping.plus (ybegin (mkView 0 12 4 3) 2) 1 = Ok c /\ it_ c = 6) /\
    forall (T : Type) (data : list T),
      deref data (Nat.iter 2 next xb) =
      deref data (Nat.iter 1 next (ybegin (mkView 0 12 4 3) 2)).
Proof.
  destruct (C1_round_trip_addressing (mkView 0 12 4 3) 2 1 attached_twelve_by_four
              ltac:(vm_compute; split; [discriminate | reflexivity])
              ltac:(vm_compute; split; [discriminate | reflexivity]))
    as [Hcell Hfit].
  apply Hcell, Hfit. vm_compute. discriminate.
Defined.

Lemma attached_two_to_the_31_plus_two_by_two :
  attached (mkView 0 2147483650 2 1073741825).
Proof.
  exists false, 0, 2147483650, 2. unfold reachable.
  repeat split; vm_compute; congruence.
Qed.

(** C1 as first stated fails: in the view of a range of 2^31 + 2 elements
    with row length 2, the cell of column 0 in the last row, row 2^30, is in
    range, and [xbegin] multiplies 2^30 by 2 in [int]: it reaches no
    position. *)
Lemma C1_last_row_overflows_counterexample :
  attached (mkView 0 2147483650 2 1073741825) /\
  0 <= 0 < xSize (mkView 0 2147483650 2 1073741825) /\
  0 <= 1073741824 < ySize (mkView 0 2147483650 2 1073741825) /\
  xbegin (mkView 0 2147483650 2 1073741825) 1073741824 = Undefined SignedOverflow.
Proof.
  split; [exact attached_two_to_the_31_plus_two_by_two|].
  repeat split; vm_compute; congruence.
Qed.
(** ** Traversals *)

#[export] Instance x_iterator_lawful : LawfulIterator x_iterator.
Proof.
  constructor; cbn; unfold it_plus.
  - intros it. lia.
  - intros it. lia.
  - intros a b. apply Z.eqb_eq.
Qed.

#[export] Instance stepping_iterator_lawful : LawfulIterator stepping_iterator.
Proof.
  constructor; cbn; unfold Stepping.incr, Stepping.decr, Stepping.eqb, it_plus.
  - intros [p d]. cbn. f_equal. lia.
  - intros [p d]. cbn. f_equal. lia.
  - intros [p d] [q d']. cbn. rewrite andb_true_iff, !Z.eqb_eq.
    split; [intros [-> ->]; reflexivity | intros [= -> ->]; auto].
Qed.

#[export] Instance reverse_iterator_lawful (It : Type) `{LawfulIterator It}
  : LawfulIterator (reverse_iterator It).
Proof.
  constructor; cbn.
  - intros [c]. cbn. now rewrite next_prev.
  - intros [c]. cbn. now rewrite prev_next.
  - intros [a] [b]. cbn. rewrite same_iff.
    split; [intros ->; reflexivity | intros [= ->]; reflexivity].
Qed.

Lemma rev_map_seq {A : Type} (f : nat -> A) (n : nat) :
  rev (map f (seq 0 n)) = map (fun k => f (n - 1 - k)%nat) (seq 0 n).
Proof.
  induction n as [|n IH]; [reflexivity|].
  rewrite seq_S at 1. rewrite map_app, rev_app_distr. cbn [map rev app plus].
  rewrite IH. cbn [seq map].
  rewrite <- seq_shift, map_map.
  f_equal; [f_equal; lia|].
  apply map_ext. intros k. f_equal. lia.
Qed.

Section Traversal.

Context {It : Type} `{LawfulIterator It}.

Lemma same_refl (it : It) : same it it = true.
Proof. now apply same_iff. Qed.

Lemma same_false (a b : It) : a <> b -> same a b = false.
Proof.
  intros Hab. destruct (same a b) eqn:E; [|reflexivity].
  apply same_iff in E. contradiction.
Qed.

Lemma traverse_done (fuel : nat) (it : It) : traverse fuel it it = Some [].
Proof. destruct fuel; cbn; now rewrite same_refl. Qed.

(** Enough fuel: when [last] is first met after [n] increments, any fuel
    of at least [n] makes the loop stop, having dereferenced the [n]
    cursors before [last]. *)
Lemma traverse_complete (n : nat) :
  forall (fuel : nat) (first last : It),
    Nat.iter n next first = last ->
    (forall k, (k < n)%nat -> Nat.iter k next first <> last) ->
    (n <= fuel)%nat ->
    traverse fuel first last =
    Some (map (fun k => Nat.iter k next first) (seq 0 n)).
Proof.
  induction n as [|n IH]; intros fuel first last Hn Hmin Hfuel.
  - cbn in Hn. subst last. apply traverse_done.
  - destruct fuel as [|fuel]; [lia|].
    cbn [traverse].
    rewrite same_false by (apply (Hmin 0%nat); lia).
    rewrite (IH fuel (next first) last).
    + cbn [option_map seq map Nat.iter nat_rect].
      rewrite <- seq_shift, map_map. do 2 f_equal.
      apply map_ext. intros k. now rewrite Nat.iter_succ_r.
    + now rewrite <- Nat.iter_succ_r.
    + intros k Hk. rewrite <- Nat.iter_succ_r. apply Hmin. lia.
    + lia.
Qed.

Lemma traverse_sound (fuel : nat) :
  forall (first last : It) (l : list It),
    traverse fuel first last = Some l ->
    (List.length l <= fuel)%nat /\
    Nat.iter (List.length l) next first = last /\
    (forall k, (k < List.length l)%nat -> Nat.iter k next first <> last) /\
    l = map (fun k => Nat.iter k next first) (seq 0 (List.length l)).
Proof.
  induction fuel as [|fuel IH]; intros first last l; cbn [traverse].
  - destruct (same first last) eqn:E; [|discriminate].
    intros [= <-]. apply same_iff in E. cbn. repeat split; auto; lia.
  - destruct (same first last) eqn:E.
    + intros [= <-]. apply same_iff in E. cbn. repeat split; auto; lia.
    + destruct (traverse fuel (next first) last) as [l'|] eqn:T; [|discriminate].
      intros [= <-]. destruct (IH _ _ _ T) as (Hlen & Hn & Hmin & Hl).
      cbn [List.length]. repeat split.
      * lia.
      * now rewrite Nat.iter_succ_r.
      * intros [|k] Hk.
        -- cbn. intros ->. rewrite same_refl in E. discriminate.
        -- rewrite Nat.iter_succ_r. apply Hmin. lia.
      * cbn [seq map Nat.iter nat_rect]. f_equal.
        rewrite <- seq_shift, map_map. rewrite Hl at 1.
        apply map_ext. intros k. now rewrite Nat.iter_succ_r.
Qed.

Lemma iter_prev_next (k m : nat) (it : It) :
  Nat.iter k prev (Nat.iter (k + m) next it) = Nat.iter m next it.
Proof.
  induction k as [|k IH]; [reflexivity|].
  rewrite Nat.iter_succ_r. cbn [plus]. rewrite Nat.iter_succ, prev_next.
  exact IH.
Qed.

End Traversal.

Section ReverseTraversal.

Context {It : Type} `{LawfulIterator It}.

Lemma iter_next_reverse (k : nat) (it : It) :
  Nat.iter k next (Reverse it) = Reverse (Nat.iter k prev it).
Proof.
  induction k as [|k IH]; [reflexivity|].
  rewrite !Nat.iter_succ, IH. reflexivity.
Qed.

(** The reverse adaptor walks a range backwards: the traversal of
    [[Reverse last, Reverse first)] dereferences the positions of
    [[first, last)] in the opposite order. *)
Lemma visits_reverse (fuel : nat) (first last : It) (ps : list position) :
  visits fuel first last = Some ps ->
  visits fuel (Reverse last) (Reverse first) = Some (rev ps).
Proof.
  unfold visits. destruct (traverse fuel first last) as [l|] eqn:T; [|discriminate].
  cbn [option_map]. intros [= <-].
  destruct (traverse_sound _ _ _ _ T) as (Hfuel & Hn & Hmin & Hl).
  set (n := List.length l) in *.
  assert (Hback : forall k, (k <= n)%nat ->
              Nat.iter k prev last = Nat.iter (n - k) next first).
  { intros k Hk. rewrite <- Hn.
    rewrite <- (iter_prev_next k (n - k) first).
    do 2 f_equal. lia. }
  rewrite (traverse_complete n fuel (Reverse last) (Reverse first)).
  - cbn [option_map]. f_equal.
    rewrite Hl, !map_map, rev_map_seq.
    apply map_ext_in. intros k Hk. apply in_seq in Hk.
    rewrite iter_next_reverse. cbn [target reverse_iterator_Iterator current].
    change (prev (Nat.iter k prev last)) with (Nat.iter (S k) prev last).
    rewrite Hback by lia. f_equal. f_equal. lia.
  - rewrite iter_next_reverse, Hback by lia.
    now rewrite Nat.sub_diag.
  - intros k Hk. rewrite iter_next_reverse, Hback by lia.
    intros [= Hloop].
    apply (Hmin k Hk).
    rewrite <- Hloop at 1. rewrite <- Nat.iter_add, <- Hn.
    f_equal. lia.
  - exact Hfuel.
Qed.

(** Reversing twice gives back the forward cursor, positionally. *)
Lemma reverse_reverse (x : It) :
  current (current (Reverse (Reverse x))) = x /\
  target (Reverse (Reverse x)) = target x /\
  next (Reverse (Reverse x)) = Reverse (Reverse (next x)).
Proof.
  cbn. now rewrite prev_next.
Qed.

End ReverseTraversal.

(** ** Reading the underlying sequence *)

Section ElementsFacts.

Context {T : Type}.

Lemma read_some (data : list T) (p : position) :
  0 <= p < Z.of_nat (List.length data) -> exists x, read data p = Some x.
Proof.
  intros Hp. unfold read.
  destruct (Z.ltb_spec p 0) as [Hneg|_]; [lia|].
  destruct (nth_error data (Z.to_nat p)) as [x|] eqn:E; [eauto|].
  apply nth_error_None in E. lia.
Qed.

Lemma values_total (data : list T) (ps : list position) :
  Forall (fun p => 0 <= p < Z.of_nat (List.length data)) ps ->
  exists l, values data ps = Some l /\ List.length l = List.length ps.
Proof.
  induction 1 as [|p ps Hp _ [l [IH Hlen]]].
  - exists []. auto.
  - destruct (read_some data p Hp) as [x Hx].
    exists (x :: l). cbn. rewrite Hx, IH. auto.
Qed.

Lemma values_app (data : list T) (ps qs : list position) (l m : list T) :
  values data ps = Some l -> values data qs = Some m ->
  values data (ps ++ qs) = Some (l ++ m).
Proof.
  revert l. induction ps as [|p ps IH]; intros l; cbn.
  - intros [= <-] Hq. exact Hq.
  - destruct (read data p) as [x|]; [|discriminate].
    destruct (values data ps) as [xs|]; [|discriminate].
    intros [= <-] Hq. now rewrite (IH xs eq_refl Hq).
Qed.

Lemma values_rev (data : list T) (ps : list position) (l : list T) :
  values data ps = Some l -> values data (rev ps) = Some (rev l).
Proof.
  revert l. induction ps as [|p ps IH]; intros l; cbn.
  - now intros [= <-].
  - destruct (read data p) as [x|] eqn:Hx; [|discriminate].
    destruct (values data ps) as [xs|]; [|discriminate].
    intros [= <-]. cbn. apply values_app; [now apply IH|].
    cbn. now rewrite Hx.
Qed.

Lemma iterate_visits {It : Type} `{Iterator It}
    (data : list T) (fuel : nat) (first last : It) (ps : list position) :
  visits fuel first last = Some ps ->
  iterate data fuel first last = values data ps.
Proof. unfold iterate. now intros ->. Qed.

End ElementsFacts.

(** ** Rows and columns of an attached view *)

Lemma spec_cell_within (v : LexicographicalView) (i j : Z) :
  view_invariant v -> 0 <= i < xSize_ v -> 0 <= j < ySize_ v ->
  begin_ v <= spec_cell v i j < end_ v.
Proof.
  intros [Hr Hx _ _ Hfit] Hi Hj. unfold spec_cell.
  pose proof (Hfit ltac:(lia)).
  pose proof (offset_bounds (j + 1) (ySize_ v) (xSize_ v) (end_ v - begin_ v)).
  pose proof (offset_bounds j (ySize_ v) (xSize_ v) (end_ v - begin_ v)).
  lia.
Qed.

Lemma spec_row_within (v : LexicographicalView) (j : Z) :
  view_invariant v -> 0 <= j < ySize_ v ->
  Forall (fun p => begin_ v <= p < end_ v) (spec_row v j).
Proof.
  intros I Hj. unfold spec_row. apply Forall_map, Forall_forall.
  intros k Hk. apply in_seq in Hk. apply spec_cell_within; auto.
  destruct I. lia.
Qed.

Lemma spec_column_within (v : LexicographicalView) (i : Z) :
  view_invariant v -> 0 <= i < xSize_ v ->
  Forall (fun p => begin_ v <= p < end_ v) (spec_column v i).
Proof.
  intros I Hi. unfold spec_column. apply Forall_map, Forall_forall.
  intros k Hk. apply in_seq in Hk. apply spec_cell_within; auto.
  lia.
Qed.

Lemma within_values {T : Type} (data : list T) (v : LexicographicalView)
    (ps : list position) :
  within data v -> Forall (fun p => begin_ v <= p < end_ v) ps ->
  exists l, values data ps = Some l /\ List.length l = List.length ps.
Proof.
  intros [Hb He] Hps. apply values_total.
  eapply Forall_impl; [|exact Hps]. cbn. intros p Hp. lia.
Qed.

Lemma row_visits (v : LexicographicalView) (j : Z) (fuel : nat) :
  0 < xSize_ v -> (Z.to_nat (xSize_ v) <= fuel)%nat ->
  visits fuel (begin_ v + j * xSize_ v : x_iterator)
              (begin_ v + (j + 1) * xSize_ v : x_iterator)
  = Some (spec_row v j).
Proof.
  intros Hx Hfuel. unfold visits.
  rewrite (traverse_complete (Z.to_nat (xSize_ v))).
  - cbn [option_map]. f_equal. unfold spec_row. rewrite map_map.
    apply map_ext. intros k. rewrite iter_next_x. reflexivity.
  - rewrite iter_next_x. lia.
  - intros k Hk. rewrite iter_next_x. lia.
  - exact Hfuel.
Qed.

Lemma column_visits (v : LexicographicalView) (i : Z) (fuel : nat) :
  0 < xSize_ v -> 0 <= ySize_ v -> (Z.to_nat (ySize_ v) <= fuel)%nat ->
  visits fuel (ybegin v i)
              (y_iterator (begin_ v + i + ySize_ v * xSize_ v) (xSize_ v))
  = Some (spec_column v i).
Proof.
  intros Hx Hy Hfuel. unfold visits.
  rewrite (traverse_complete (Z.to_nat (ySize_ v))).
  - cbn [option_map]. f_equal. unfold spec_column. rewrite map_map.
    apply map_ext. intros k. rewrite iter_next_y.
    unfold ybegin, it_plus, spec_cell. cbn. lia.
  - rewrite iter_next_y. unfold ybegin, it_plus. cbn [it_ dx_].
    rewrite Z2Nat.id by lia. reflexivity.
  - intros k Hk. rewrite iter_next_y. unfold ybegin, it_plus. cbn [it_ dx_].
    intros [= E]. nia.
  - exact Hfuel.
Qed.

(** C5, as amended: for every attached view, every in-range row [j] whose
    end offset [(j + 1) * xSize] is at most [Int.max] and, provided the
    stored [ySize] is not negative, every in-range column [i]: traversing
    [[rxbegin j, rxend j)] dereferences the positions of row [j] from last
    to first and so yields the elements of row [j] in reverse order, and
    traversing [[rybegin i, ryend i)] does the same for column [i].  Both
    provisos hold in a view over at most [Int.max] elements.  Reversing a
    reverse cursor recovers the forward cursor positionally, and a reverse
    cursor built from the forward position [p] dereferences to the element
    at [p - 1]. *)
Theorem C5_reverse_laws :
  forall v : LexicographicalView,
    attached v ->
    (forall j : Z,
        0 <= j < ySize v ->
        (j + 1) * xSize v <= Int.max ->
        exists (xb xe : x_iterator),
          xbegin v j = Ok xb /\ xend v j = Ok xe /\
          rxbegin v j = Ok (Reverse xe) /\ rxend v j = Ok (Reverse xb) /\
          forall fuel : nat,
            (Z.to_nat (xSize v) <= fuel)%nat ->
            visits fuel xb xe = Some (spec_row v j) /\
            visits fuel (Reverse xe) (Reverse xb) = Some (rev (spec_row v j)) /\
            forall (T : Type) (data : list T),
              within data v ->
              exists row : list T,
                List.length row = Z.to_nat (xSize v) /\
                iterate data fuel xb xe = Some row /\
                iterate data fuel (Reverse xe) (Reverse xb) = Some (rev row)) /\
    (forall i : Z,
        0 <= i < xSize v ->
        0 <= ySize v ->
        exists ye : stepping_iterator,
          yend v i = Ok ye /\
          rybegin v i = Ok (Reverse ye) /\ ryend v i = Reverse (ybegin v i) /\
          forall fuel : nat,
            (Z.to_nat (ySize v) <= fuel)%nat ->
            visits fuel (ybegin v i) ye = Some (spec_column v i) /\
            visits fuel (Reverse ye) (ryend v i) = Some (rev (spec_column v i)) /\
            forall (T : Type) (data : list T),
              within data v ->
              exists column : list T,
                List.length column = Z.to_nat (ySize v) /\
                iterate data fuel (ybegin v i) ye = Some column /\
                iterate data fuel (Reverse ye) (ryend v i) = Some (rev column)) /\
    (end_ v - begin_ v <= Int.max ->
     0 <= ySize v /\
     forall j : Z, 0 <= j < ySize v -> (j + 1) * xSize v <= Int.max) /\
    (forall (It : Type) (I : Iterator It) (L : LawfulIterator It) (x : It),
        current (current (Reverse (Reverse x))) = x /\
        target (Reverse (Reverse x)) = target x /\
        next (Reverse (Reverse x)) = Reverse (Reverse (next x))) /\
    (forall (p : x_iterator) (T : Type) (data : list T),
        target (Reverse p) = p - 1 /\
        deref data (Reverse p) = read data (p - 1)).
Proof.
  intros v Ha. apply attached_invariant in Ha. unfold xSize, ySize.
  pose proof Ha as [Hr Hx Hq Hint Hfit].
  split; [|split; [|split; [|split]]].
  - intros j Hj Hoff.
    exists (begin_ v + j * xSize_ v), (begin_ v + (j + 1) * xSize_ v).
    pose proof (xbegin_ok v j ltac:(lia) ltac:(lia) ltac:(nia)) as Hb.
    pose proof (xend_ok v j ltac:(lia) ltac:(lia) Hoff) as He.
    split; [exact Hb|]. split; [exact He|].
    split; [unfold rxbegin; now rewrite He|].
    split; [unfold rxend; now rewrite Hb|].
    intros fuel Hfuel.
    pose proof (row_visits v j fuel ltac:(lia) Hfuel) as Hrow.
    pose proof (visits_reverse _ _ _ _ Hrow) as Hrev.
    split; [exact Hrow|]. split; [exact Hrev|].
    intros T data Hin.
    destruct (within_values data v (spec_row v j) Hin (spec_row_within v j Ha Hj))
      as [row [Hvals Hlen]].
    exists row. split; [|split].
    + rewrite Hlen. unfold spec_row. now rewrite length_map, length_seq.
    + now rewrite (iterate_visits data _ _ _ _ Hrow).
    + rewrite (iterate_visits data _ _ _ _ Hrev). now apply values_rev.
  - intros i Hi Hpos.
    exists (y_iterator (begin_ v + i + ySize_ v * xSize_ v) (xSize_ v)).
    pose proof (yend_ok v i Ha) as He.
    split; [exact He|].
    split; [unfold rybegin; now rewrite He|].
    split; [reflexivity|].
    intros fuel Hfuel.
    pose proof (column_visits v i fuel ltac:(lia) Hpos Hfuel) as Hcol.
    pose proof (visits_reverse _ _ _ _ Hcol) as Hrev.
    split; [exact Hcol|]. split; [exact Hrev|].
    intros T data Hin.
    destruct (within_values data v (spec_column v i) Hin (spec_column_within v i Ha Hi))
      as [col [Hvals Hlen]].
    exists col. split; [|split].
    + rewrite Hlen. unfold spec_column. now rewrite length_map, length_seq.
    + now rewrite (iterate_visits data _ _ _ _ Hcol).
    + unfold ryend. rewrite (iterate_visits data _ _ _ _ Hrev). now apply values_rev.
  - intros Hs. split.
    + apply (small_view v Ha). now apply small_range_quotient.
    + intros j Hj. now apply row_offsets_fit.
  - intros It I L x. apply reverse_reverse.
  - intros p T data. unfold deref. cbn. unfold it_plus.
    split; [lia | f_equal; lia].
Qed.

Lemma within_twelve : within twelve (mkView 0 12 4 3).
Proof. unfold within. vm_compute. split; discriminate. Qed.

Lemma C5_reverse_laws_witness :
  (exists (rb re : reverse_x_iterator) (row : list Z),
      rxbegin (mkView 0 12 4 3) 1 = Ok rb /\ rxend (mkView 0 12 4 3) 1 = Ok re /\
      visits 4 rb re = Some [7; 6; 5; 4] /\
      iterate twelve 4 rb re = Some (rev row)) /\
  (exists (rb : reverse_y_iterator) (column : list Z),
      rybegin (mkView 0 12 4 3) 2 = Ok rb /\
      visits 3 rb (ryend (mkView 0 12 4 3) 2) = Some [10; 6; 2] /\
      iterate twelve 3 rb (ryend (mkView 0 12 4 3) 2) = Some (rev column)).
Proof.
  destruct (C5_reverse_laws (mkView 0 12 4 3) attached_twelve_by_four)
    as [Hrows [Hcols _]].
  split.
  - destruct (Hrows 1 ltac:(vm_compute; split; [discriminate | reflexivity])
                      ltac:(vm_compute; discriminate))
      as (xb & xe & _ & _ & Hrb & Hre & Hwalk).
    destruct (Hwalk 4%nat (le_n 4)) as (_ & Hrev & Hdata).
    destruct (Hdata Z twelve within_twelve) as (row & _ & _ & Hrow).
    exists (Reverse xe), (Reverse xb), row.
    split; [exact Hrb|]. split; [exact Hre|].
    split; [exact Hrev | exact Hrow].
  - destruct (Hcols 2 ltac:(vm_compute; split; [discriminate | reflexivity])
                      ltac:(vm_compute; discriminate))
      as (ye & _ & Hrb & _ & Hwalk).
    destruct (Hwalk 3%nat (le_n 3)) as (_ & Hrev & Hdata).
    destruct (Hdata Z twelve within_twelve) as (col & _ & _ & Hcol).
    exists (Reverse ye), col.
    split; [exact Hrb|]. split; [exact Hrev | exact Hcol].
Defined.

(** C5 as first stated fails: in the view of a range of 2^31 elements
    with row length 2, the last row is in range and [rxbegin] reverses an
    [xend] whose [int] product overflows: there is no cursor to start the
    reverse traversal from. *)
Lemma C5_last_row_overflows_counterexample :
  attached (mkView 0 2147483648 2 1073741824) /\
  0 <= 1073741823 < ySize (mkView 0 2147483648 2 1073741824) /\
  rxbegin (mkView 0 2147483648 2 1073741824) 1073741823 = Undefined SignedOverflow.
Proof.
  split; [exact attached_two_to_the_31_by_two|].
  repeat split; vm_compute; congruence.
Qed.

(** C9, as amended: for every attached view whose range length is an
    exact multiple of the row length and whose quotient is at most
    [Int.max], [yend i] wraps the position [begin + i + xSize * ySize],
    which is [i] elements past [end]; for [i >= 1] it lies strictly beyond
    [end].  It only bounds the traversal of column [i]: for [i] in
    [[0, xSize)] that traversal stops there, having dereferenced positions
    of [[begin, end)] only, and never the position that [yend i] wraps. *)
Theorem C9_column_end_past_range :
  forall (v : LexicographicalView) (i : Z),
    attached v ->
    Z.rem (end_ v - begin_ v) (xSize v) = 0 ->
    Z.quot (end_ v - begin_ v) (xSize v) <= Int.max ->
    exists ye : stepping_iterator,
      yend v i = Ok ye /\
      it_ ye = begin_ v + i + xSize v * ySize v /\
      it_ ye - end_ v = i /\
      (1 <= i -> end_ v < it_ ye) /\
      (0 <= i < xSize v ->
       forall fuel : nat,
         (Z.to_nat (ySize v) <= fuel)%nat ->
         exists ps : list position,
           visits fuel (ybegin v i) ye = Some ps /\
           List.length ps = Z.to_nat (ySize v) /\
           Forall (fun p => begin_ v <= p < end_ v) ps /\
           ~ In (it_ ye) ps).
Proof.
  intros v i Ha Hrem Hquot. apply attached_invariant in Ha. unfold xSize, ySize in *.
  exists (y_iterator (begin_ v + i + ySize_ v * xSize_ v) (xSize_ v)).
  destruct (small_view v Ha Hquot) as [Hy Hpos].
  pose proof Ha as [Hr Hx _ _ _].
  assert (Hlen : ySize_ v * xSize_ v = end_ v - begin_ v).
  { rewrite Hy. apply quot_exact; [lia | lia | assumption]. }
  cbn [it_].
  split; [now apply yend_ok|].
  split; [lia|]. split; [lia|]. split; [lia|].
  intros Hi fuel Hfuel. exists (spec_column v i).
  pose proof (spec_column_within v i Ha Hi) as Hin.
  split; [apply column_visits; [lia | assumption | assumption]|]. split; [|split].
  - unfold spec_column. now rewrite length_map, length_seq.
  - exact Hin.
  - intros Hye. rewrite Forall_forall in Hin. apply Hin in Hye. lia.
Qed.

Lemma C9_column_end_past_range_witness :
  exists (ye : stepping_iterator) (ps : list position),
    yend (mkView 0 12 4 3) 2 = Ok ye /\ it_ ye = 14 /\ 12 < it_ ye /\
    visits 3 (ybegin (mkView 0 12 4 3) 2) ye = Some ps /\
    List.length ps = 3%nat /\ ~ In (it_ ye) ps.
Proof.
  destruct (C9_column_end_past_range (mkView 0 12 4 3) 2
              attached_twelve_by_four eq_refl ltac:(vm_compute; discriminate))
    as (ye & He & Hpos & _ & Hpast & Hwalk).
  destruct (Hwalk ltac:(vm_compute; split; [discriminate | reflexivity])
                  3%nat (le_n 3))
    as (ps & Hps & Hlen & _ & Hout).
  exists ye, ps. split; [exact He|]. split; [exact Hpos|].
  split; [apply Hpast; discriminate|].
  split; [exact Hps|]. split; [exact Hlen | exact Hout].
Defined.

Lemma attached_two_to_the_31_by_one : attached (mkView 0 2147483648 1 (-2147483648)).
Proof.
  exists false, 0, 2147483648, 1. unfold reachable.
  repeat split; vm_compute; congruence.
Qed.

(** C9 as first stated fails: the view of a range of 2^31 elements with
    row length 1 is an exact multiple, its stored [ySize] is -2^31, and
    [yend 0] wraps the position [begin - 2^31], which is neither [end] nor
    past it. *)
Lemma C9_column_end_before_range_counterexample :
  attached (mkView 0 2147483648 1 (-2147483648)) /\
  Z.rem (end_ (mkView 0 2147483648 1 (-2147483648))
         - begin_ (mkView 0 2147483648 1 (-2147483648)))
        (xSize (mkView 0 2147483648 1 (-2147483648))) = 0 /\
  yend (mkView 0 2147483648 1 (-2147483648)) 0 = Ok (y_iterator (-2147483648) 1) /\
  -2147483648 <> end_ (mkView 0 2147483648 1 (-2147483648)) + 0.
Proof.
  split; [exact attached_two_to_the_31_by_one|].
  repeat split; vm_compute; congruence.
Qed.

(** C8: attaching a view with row length 4 to the twelve-element sequence
    0, ..., 11 gives [ySize = 3]; traversing [[xbegin 1, xend 1)] yields
    4, 5, 6, 7; traversing [[ybegin 2, yend 2)] yields 2, 6, 10; and
    [view[2]], advanced once and then dereferenced, yields 6. *)
Theorem C8_twelve_by_four :
  exists v : LexicographicalView,
    LexicographicalView_ctor false 0 (Z.of_nat (List.length twelve)) 4 = Ok v /\
    LexicographicalView_ctor true 0 (Z.of_nat (List.length twelve)) 4 = Ok v /\
    ySize v = 3 /\
    (exists xb xe : x_iterator,
        xbegin v 1 = Ok xb /\ xend v 1 = Ok xe /\
        iterate twelve 4 xb xe = Some [4; 5; 6; 7]) /\
    (exists ye : stepping_iterator,
        yend v 2 = Ok ye /\
        iterate twelve 3 (ybegin v 2) ye = Some [2; 6; 10]) /\
    deref twelve (operator_index v 2) = Some 2 /\
    deref twelve (next (operator_index v 2)) = Some 6.
Proof.
  exists (mkView 0 12 4 3).
  repeat split.
  - exists 4, 8. repeat split.
  - exists (y_iterator 14 4). repeat split.
Qed.

(** * Further properties of the code *)

(** ** The constructor on arbitrary arguments *)

Lemma member_initialisers_inv (b e : position) (xs : Z) (v : LexicographicalView) :
  member_initialisers b e xs = Ok v ->
  Diff.min <= e - b <= Diff.max /\ xs <> 0 /\
  Diff.min <= Z.quot (e - b) xs <= Diff.max /\
  v = mkView b e xs (Int.narrow (Z.quot (e - b) xs)).
Proof.
  unfold member_initialisers, it_minus, Diff.div, Diff.of_Z.
  destruct (Diff.representable (e - b)) eqn:Hlen; [|discriminate].
  cbn [bind].
  destruct (Z.eqb_spec xs 0) as [|Hxs]; [discriminate|].
  destruct (Diff.representable (Z.quot (e - b) xs)) eqn:Hq; [|discriminate].
  cbn [bind]. intros [= <-].
  apply diff_representable_iff in Hlen, Hq. auto.
Qed.

Lemma constructor_body_debug_inv (b e : position) (xs ys : Z) :
  Diff.min <= e - b <= Diff.max -> xs <> 0 ->
  constructor_body true (mkView b e xs ys) = Ok tt ->
  Z.rem (e - b) xs = 0.
Proof.
  intros Hlen Hxs. unfold constructor_body, Diff.rem. cbn [begin_ end_ xSize_].
  rewrite it_minus_ok by assumption. cbn [bind].
  destruct (Z.eqb_spec xs 0); [contradiction|].
  destruct ((e - b =? Diff.min) && (xs =? -1)); [discriminate|].
  cbn [bind]. unfold QL_REQUIRE.
  destruct (Z.eqb_spec (Z.rem (e - b) xs) 0); [auto | discriminate].
Qed.

Lemma constructor_body_debug_ok (b e : position) (xs ys : Z) :
  Diff.min <= e - b <= Diff.max -> xs <> 0 ->
  Diff.min <= Z.quot (e - b) xs <= Diff.max ->
  Z.rem (e - b) xs = 0 ->
  constructor_body true (mkView b e xs ys) = Ok tt.
Proof.
  intros Hlen Hxs Hq Hrem. unfold constructor_body, Diff.rem. cbn [begin_ end_ xSize_].
  rewrite it_minus_ok by assumption. cbn [bind].
  destruct (Z.eqb_spec xs 0); [contradiction|].
  destruct ((e - b =? Diff.min) && (xs =? -1)) eqn:Hov.
  - exfalso. apply andb_true_iff in Hov. destruct Hov as [Ha Hb].
    apply Z.eqb_eq in Ha, Hb. rewrite Ha, Hb in Hq.
    vm_compute in Hq. destruct Hq as [_ Hq]. apply Hq. reflexivity.
  - cbn [bind]. rewrite Hrem. reflexivity.
Qed.

(** X5: whatever the arguments, when the constructor yields a view the
    row length is not zero, the range length is a value of the difference
    type, the view stores the arguments as given together with the
    truncating quotient narrowed to [int], and in a debug build the
    remainder is zero. *)
Theorem ctor_success_inversion :
  forall (QL_DEBUG : bool) (b e : position) (xs : Z) (v : LexicographicalView),
    LexicographicalView_ctor QL_DEBUG b e xs = Ok v ->
    xs <> 0 /\
    Diff.min <= e - b <= Diff.max /\
    begin_ v = b /\ end_ v = e /\ xSize v = xs /\
    ySize v = Int.narrow (Z.quot (e - b) xs) /\
    Int.min <= ySize v <= Int.max /\
    (QL_DEBUG = true -> Z.rem (e - b) xs = 0).
Proof.
  intros dbg b e xs v. unfold LexicographicalView_ctor.
  destruct (member_initialisers b e xs) as [this| |] eqn:Hinit; try discriminate.
  cbn [bind].
  destruct (member_initialisers_inv _ _ _ _ Hinit) as (Hlen & Hxs & Hq & ->).
  destruct (constructor_body dbg _) as [[]| |] eqn:Hbody; try discriminate.
  cbn [bind]. intros [= <-]. unfold xSize, ySize. cbn [begin_ end_ xSize_ ySize_].
  split; [assumption|]. split; [assumption|].
  do 4 (split; [reflexivity|]).
  split; [apply narrow_range|].
  intros ->. now apply (constructor_body_debug_inv b e xs (Int.narrow (Z.quot (e - b) xs)) Hlen Hxs).
Qed.

Lemma ctor_success_inversion_witness :
  1 <> 0 /\ Diff.min <= 2147483648 - 0 <= Diff.max /\
  begin_ (mkView 0 2147483648 1 (-2147483648)) = 0 /\
  end_ (mkView 0 2147483648 1 (-2147483648)) = 2147483648 /\
  xSize (mkView 0 2147483648 1 (-2147483648)) = 1 /\
  ySize (mkView 0 2147483648 1 (-2147483648)) = Int.narrow (Z.quot (2147483648 - 0) 1) /\
  Int.min <= ySize (mkView 0 2147483648 1 (-2147483648)) <= Int.max /\
  (true = true -> Z.rem (2147483648 - 0) 1 = 0).
Proof.
  apply (ctor_success_inversion true 0 2147483648 1 (mkView 0 2147483648 1 (-2147483648))).
  reflexivity.
Defined.

(** X6: whatever the arguments, the debug build yields a view exactly when
    the plain build yields that same view and the remainder of the range
    length by the row length is zero: the check only ever rejects. *)
Theorem debug_build_agrees_with_plain_build :
  forall (b e : position) (xs : Z) (v : LexicographicalView),
    LexicographicalView_ctor true b e xs = Ok v <->
    LexicographicalView_ctor false b e xs = Ok v /\ Z.rem (e - b) xs = 0.
Proof.
  intros b e xs v. unfold LexicographicalView_ctor.
  destruct (member_initialisers b e xs) as [this| |] eqn:Hinit; cbn [bind].
  - destruct (member_initialisers_inv _ _ _ _ Hinit) as (Hlen & Hxs & Hq & ->).
    change (constructor_body false (mkView b e xs (Int.narrow (Z.quot (e - b) xs))))
      with (@Ok unit tt).
    cbn [bind]. split.
    + destruct (constructor_body true _) as [[]| |] eqn:Hbody; try discriminate.
      cbn [bind]. intros Hv. split; [exact Hv|].
      now apply (constructor_body_debug_inv b e xs (Int.narrow (Z.quot (e - b) xs)) Hlen Hxs).
    + intros [Hv Hrem].
      now rewrite (constructor_body_debug_ok b e xs _ Hlen Hxs Hq Hrem).
  - split; [discriminate | intros [H _]; discriminate].
  - split; [discriminate | intros [H _]; discriminate].
Qed.

(** X7: a range shorter than one row (the empty range included).  The
    plain build yields a view without rows, [ySize = 0]; every column is
    empty, [yend i] being the cursor [ybegin i] itself, so a column
    traversal stops at once without dereferencing anything, and so does
    the walk over all rows.  The debug build accepts such a range only
    when it is empty. *)
Theorem range_shorter_than_a_row :
  forall (b e : position) (xs : Z),
    reachable b e -> e - b < xs ->
    exists v : LexicographicalView,
      LexicographicalView_ctor false b e xs = Ok v /\
      ySize v = 0 /\
      (forall i : Z, yend v i = Ok (ybegin v i)) /\
      (forall (i : Z) (fuel : nat), visits fuel (ybegin v i) (ybegin v i) = Some []) /\
      (forall fuel : nat, rows_from fuel v 0 (Z.to_nat (ySize v)) = Some []) /\
      (LexicographicalView_ctor true b e xs = Ok v <-> e = b).
Proof.
  intros b e xs Hr Hshort. pose proof Hr as [Hlo Hhi].
  assert (Hxs : 0 < xs) by lia.
  assert (Hq : Z.quot (e - b) xs = 0) by (apply Z.quot_small; lia).
  exists (mkView b e xs 0).
  assert (Hplain : LexicographicalView_ctor false b e xs = Ok (mkView b e xs 0)).
  { rewrite ctor_unchecked by assumption. now rewrite Hq. }
  split; [exact Hplain|]. split; [reflexivity|].
  split; [|split; [|split]].
  - intros i. unfold yend, ybegin, Stepping.plus, Diff.mul, it_plus.
    cbn [dx_ it_ ySize_ xSize_ begin_].
    rewrite diff_of_Z_ok by (cbn; pose proof diff_min_negative; lia).
    cbn [bind]. do 2 f_equal. lia.
  - intros i fuel. unfold visits. now rewrite traverse_done.
  - intros fuel. reflexivity.
  - rewrite ctor_checked by assumption.
    rewrite Z.rem_small, Hq by lia.
    destruct (Z.eqb_spec (e - b) 0) as [E|E].
    + split; [intros _; lia | reflexivity].
    + split; [discriminate | intros ->; lia].
Qed.

Lemma range_shorter_than_a_row_witness :
  exists v : LexicographicalView,
    LexicographicalView_ctor false 0 3 4 = Ok v /\ ySize v = 0 /\
    yend v 2 = Ok (ybegin v 2) /\
    ~ LexicographicalView_ctor true 0 3 4 = Ok v.
Proof.
  destruct (range_shorter_than_a_row 0 3 4
              ltac:(unfold reachable; vm_compute; split; discriminate)
              ltac:(reflexivity))
    as (v & Hv & Hy & Hend & _ & _ & Hdbg).
  exists v. split; [exact Hv|]. split; [exact Hy|]. split; [apply Hend|].
  intros H. apply Hdbg in H. discriminate H.
Defined.

(** X8: the constructor does not reject a negative row length.  For a
    valid range it yields, in the plain build, a view whose [ySize] is the
    truncating quotient, between [- (e - b)] and 0, narrowed to [int].  For
    a range of at most [Int.max] elements the narrowing changes nothing:
    [ySize] is zero or negative and no row index is in [[0, ySize)]. *)
Theorem negative_row_length_is_accepted :
  forall (b e : position) (xs : Z),
    reachable b e -> xs < 0 ->
    LexicographicalView_ctor false b e xs =
    Ok (mkView b e xs (Int.narrow (Z.quot (e - b) xs))) /\
    - (e - b) <= Z.quot (e - b) xs <= 0 /\
    (e - b <= Int.max ->
     Int.narrow (Z.quot (e - b) xs) = Z.quot (e - b) xs /\
     forall j : Z, ~ (0 <= j < Int.narrow (Z.quot (e - b) xs))).
Proof.
  intros b e xs [Hlo Hhi] Hxs.
  assert (Hq : - (e - b) <= Z.quot (e - b) xs <= 0).
  { replace xs with (- - xs) by lia.
    rewrite Z.quot_opp_r by lia.
    pose proof (quot_le (e - b) (- xs) Hlo ltac:(lia)).
    destruct (quot_bounds (e - b) (- xs)) as [H0 _]; lia. }
  split; [|split; [exact Hq|]].
  - unfold LexicographicalView_ctor, member_initialisers, Diff.div.
    pose proof diff_min_negative.
    rewrite it_minus_ok by lia. cbn [bind].
    destruct (Z.eqb_spec xs 0); [lia|].
    rewrite diff_of_Z_ok by (unfold Diff.max, Diff.min in *; lia).
    reflexivity.
  - intros Hs.
    assert (Hsame : Int.narrow (Z.quot (e - b) xs) = Z.quot (e - b) xs).
    { apply narrow_id. unfold Int.min, Int.max in *. lia. }
    split; [exact Hsame | intros j; lia].
Qed.

Lemma negative_row_length_is_accepted_witness :
  LexicographicalView_ctor false 0 12 (-4) = Ok (mkView 0 12 (-4) (-3)) /\
  Int.narrow (Z.quot (12 - 0) (-4)) = Z.quot (12 - 0) (-4).
Proof.
  destruct (negative_row_length_is_accepted 0 12 (-4)
              ltac:(unfold reachable; vm_compute; split; discriminate)
              ltac:(reflexivity))
    as (Hv & _ & Hsmall).
  split; [exact Hv|].
  apply Hsmall. vm_compute. discriminate.
Defined.

(** ** Rows follow one another *)

(** X1: for every view and every [int] [j] below the largest one, [xend j]
    is exactly [xbegin (j + 1)], with the same defined or undefined outcome,
    and so [rxbegin j] is [rxend (j + 1)]; at the largest [int] the
    increment in [xend] overflows whatever the view.  [xbegin 0] is always
    [begin]. *)
Theorem xend_is_next_xbegin :
  forall (v : LexicographicalView) (j : Z),
    Int.min <= j < Int.max ->
    xend v j = xbegin v (j + 1) /\
    rxbegin v j = rxend v (j + 1) /\
    xend v Int.max = Undefined SignedOverflow /\
    xbegin v 0 = Ok (begin_ v).
Proof.
  intros v j Hj. pose proof min_negative.
  assert (Hx : xend v j = xbegin v (j + 1)).
  { unfold xend, xbegin. rewrite add_ok by lia. reflexivity. }
  split; [exact Hx|]. split; [|split].
  - unfold rxbegin, rxend. now rewrite Hx.
  - reflexivity.
  - unfold xbegin. cbn [Z.mul]. rewrite mul_ok by (cbn; lia).
    cbn [bind]. unfold it_plus. f_equal. lia.
Qed.

Lemma xend_is_next_xbegin_witness :
  xend (mkView 0 12 4 3) 1 = xbegin (mkView 0 12 4 3) 2 /\
  rxbegin (mkView 0 12 4 3) 1 = rxend (mkView 0 12 4 3) 2.
Proof.
  destruct (xend_is_next_xbegin (mkView 0 12 4 3) 1
              ltac:(vm_compute; split; [discriminate | reflexivity]))
    as (H1 & H2 & _).
  split; [exact H1 | exact H2].
Defined.

(** X2: in an attached view over at most [Int.max] elements the last row
    ends where the covered part of the range ends: [xend (ySize - 1)] is
    [begin + xSize * ySize], the position that [xbegin ySize] also returns
    since no index is checked.  It falls short of [end] by the remainder
    of the range length by the row length, so it is [end] exactly when the
    row length divides the range length. *)
Theorem last_row_end :
  forall v : LexicographicalView,
    attached v ->
    end_ v - begin_ v <= Int.max ->
    xbegin v (ySize v) = Ok (begin_ v + xSize v * ySize v) /\
    (1 <= ySize v -> xend v (ySize v - 1) = Ok (begin_ v + xSize v * ySize v)) /\
    end_ v - (begin_ v + xSize v * ySize v) = Z.rem (end_ v - begin_ v) (xSize v) /\
    (xbegin v (ySize v) = Ok (end_ v) <-> Z.rem (end_ v - begin_ v) (xSize v) = 0).
Proof.
  intros v Ha Hs. apply attached_invariant in Ha. unfold xSize, ySize.
  destruct (small_view v Ha (small_range_quotient v Ha Hs)) as [Hy Hpos].
  pose proof Ha as [Hr Hx _ _ Hfit]. pose proof (Hfit Hpos) as Hcov.
  assert (Hb : xbegin v (ySize_ v) = Ok (begin_ v + ySize_ v * xSize_ v))
    by (apply xbegin_ok; lia).
  assert (Hrem : end_ v - (begin_ v + xSize_ v * ySize_ v)
                 = Z.rem (end_ v - begin_ v) (xSize_ v)).
  { pose proof (Z.quot_rem' (end_ v - begin_ v) (xSize_ v)) as E.
    rewrite <- Hy in E. lia. }
  rewrite Hb.
  split; [apply f_equal; lia|]. split; [|split].
  - intros Hone. rewrite xend_ok by lia. apply f_equal. lia.
  - exact Hrem.
  - split.
    + intros [= E]. lia.
    + intros E. apply f_equal. lia.
Qed.

Lemma last_row_end_witness :
  xbegin (mkView 0 12 4 3) 3 = Ok 12 /\ xend (mkView 0 12 4 3) 2 = Ok 12.
Proof.
  destruct (last_row_end (mkView 0 12 4 3) attached_twelve_by_four
              ltac:(vm_compute; discriminate))
    as (H1 & H2 & _).
  split; [exact H1 | apply H2; discriminate].
Defined.

Lemma seq_from (a n : nat) :
  seq a n = map (fun k => (a + k)%nat) (seq 0 n).
Proof.
  revert a. induction n as [|n IH]; intros a; cbn [seq map]; [reflexivity|].
  f_equal; [lia|].
  rewrite (IH (S a)), (IH 1%nat), map_map.
  apply map_ext. intros k. lia.
Qed.

Lemma rows_from_spec (fuel : nat) (v : LexicographicalView) (n : nat) :
  0 < xSize_ v -> (Z.to_nat (xSize_ v) <= fuel)%nat ->
  forall j0 : Z,
    0 <= j0 -> (j0 + Z.of_nat n) * xSize_ v <= Int.max ->
    rows_from fuel v j0 n =
    Some (map (fun k => begin_ v + j0 * xSize_ v + Z.of_nat k)
              (seq 0 (n * Z.to_nat (xSize_ v)))).
Proof.
  intros Hx Hfuel. induction n as [|n IH]; intros j0 H0 Hn; [reflexivity|].
  cbn [rows_from].
  rewrite xbegin_ok, xend_ok by nia.
  pose proof (row_visits v j0 fuel Hx Hfuel) as Hrow.
  unfold x_iterator in Hrow. rewrite Hrow.
  rewrite IH by lia. unfold spec_row, spec_cell.
  f_equal. cbn [Nat.mul]. rewrite seq_app, map_app. f_equal.
  rewrite (seq_from (0 + Z.to_nat (xSize_ v))), map_map.
  apply map_ext. intros k. lia.
Qed.

(** X3: in an attached view over at most [Int.max] elements, walking the
    rows one after the other, from row 0 to row [ySize - 1], dereferences
    the positions [begin], [begin + 1], ... up to [begin + xSize * ySize]
    excluded, each once and in increasing order; when the row length
    divides the range length this is the whole range [[begin, end)]. *)
Theorem rows_cover_range_in_order :
  forall (v : LexicographicalView) (fuel : nat),
    attached v ->
    end_ v - begin_ v <= Int.max ->
    (Z.to_nat (xSize v) <= fuel)%nat ->
    rows_from fuel v 0 (Z.to_nat (ySize v)) =
    Some (map (fun k => begin_ v + Z.of_nat k)
              (seq 0 (Z.to_nat (xSize v * ySize v)))) /\
    (Z.rem (end_ v - begin_ v) (xSize v) = 0 ->
     rows_from fuel v 0 (Z.to_nat (ySize v)) =
     Some (map (fun k => begin_ v + Z.of_nat k)
               (seq 0 (Z.to_nat (end_ v - begin_ v))))).
Proof.
  intros v fuel Ha Hs Hfuel. apply attached_invariant in Ha. unfold xSize, ySize in *.
  destruct (small_view v Ha (small_range_quotient v Ha Hs)) as [Hy Hpos].
  pose proof Ha as [Hr Hx _ _ Hfit]. pose proof (Hfit Hpos) as Hcov.
  assert (Hall : rows_from fuel v 0 (Z.to_nat (ySize_ v)) =
                 Some (map (fun k => begin_ v + Z.of_nat k)
                           (seq 0 (Z.to_nat (xSize_ v * ySize_ v))))).
  { rewrite (rows_from_spec fuel v (Z.to_nat (ySize_ v)) ltac:(lia) Hfuel 0)
      by (rewrite ?Z2Nat.id; lia).
    f_equal.
    replace (Z.to_nat (ySize_ v) * Z.to_nat (xSize_ v))%nat
      with (Z.to_nat (xSize_ v * ySize_ v)) by (rewrite Z2Nat.inj_mul by lia; lia).
    apply map_ext. intros k. lia. }
  split; [exact Hall|].
  intros Hrem. rewrite Hall.
  replace (xSize_ v * ySize_ v) with (end_ v - begin_ v); [reflexivity|].
  rewrite Hy, Z.mul_comm. symmetry. apply quot_exact; lia.
Qed.

Lemma rows_cover_range_in_order_witness :
  rows_from 4 (mkView 0 12 4 3) 0 3 = Some [0; 1; 2; 3; 4; 5; 6; 7; 8; 9; 10; 11].
Proof.
  destruct (rows_cover_range_in_order (mkView 0 12 4 3) 4
              attached_twelve_by_four ltac:(vm_compute; discriminate) (le_n 4))
    as [_ H].
  exact (H eq_refl).
Defined.

(** ** Cells and positions *)

Lemma row_cursor_target (p : x_iterator) (i : Z) :
  0 <= i -> target (Nat.iter (Z.to_nat i) next p) = p + i.
Proof.
  intros Hi. rewrite iter_next_x. cbn [target x_iterator_Iterator].
  rewrite Z2Nat.id by lia. reflexivity.
Qed.

Lemma column_cursor_target (v : LexicographicalView) (i j : Z) :
  0 <= j ->
  target (Nat.iter (Z.to_nat j) next (ybegin v i)) = spec_cell v i j.
Proof.
  intros Hj. rewrite iter_next_y. unfold ybegin, it_plus, spec_cell.
  cbn [target stepping_iterator_Iterator it_ dx_].
  rewrite Z2Nat.id by lia. lia.
Qed.

Lemma spec_cell_injective (v : LexicographicalView) (i j i' j' : Z) :
  0 <= i < xSize_ v -> 0 <= i' < xSize_ v ->
  spec_cell v i j = spec_cell v i' j' -> i = i' /\ j = j'.
Proof.
  unfold spec_cell. intros Hi Hi' E.
  assert (Hmod : i = i').
  { rewrite <- (Z.mod_small i (xSize_ v)), <- (Z.mod_small i' (xSize_ v)) by lia.
    rewrite <- (Z.mod_add i j (xSize_ v)), <- (Z.mod_add i' j' (xSize_ v)) by lia.
    f_equal. lia. }
  split; [exact Hmod|]. subst i'. nia.
Qed.

(** X4: in any view two in-range cells that are reached at the same
    position are the same cell, whether they are reached along their rows,
    from defined [xbegin]s, or along their columns: distinct cells never
    share an element. *)
Theorem distinct_cells_do_not_alias :
  forall (v : LexicographicalView) (i j i' j' : Z),
    0 <= i < xSize v -> 0 <= j < ySize v ->
    0 <= i' < xSize v -> 0 <= j' < ySize v ->
    (forall xb xb' : x_iterator,
        xbegin v j = Ok xb -> xbegin v j' = Ok xb' ->
        it_plus xb i = it_plus xb' i' -> i = i' /\ j = j') /\
    (target (Nat.iter (Z.to_nat j) next (ybegin v i)) =
     target (Nat.iter (Z.to_nat j') next (ybegin v i')) -> i = i' /\ j = j').
Proof.
  intros v i j i' j' Hi Hj Hi' Hj'.
  unfold xSize, ySize in *.
  split.
  - intros xb xb' Hb Hb'.
    apply xbegin_inv in Hb, Hb'. subst xb xb'.
    unfold it_plus. apply spec_cell_injective; assumption.
  - rewrite !column_cursor_target by lia.
    apply spec_cell_injective; assumption.
Qed.

Lemma distinct_cells_do_not_alias_witness :
  target (Nat.iter 1 next (ybegin (mkView 0 12 4 3) 2)) <>
  target (Nat.iter 2 next (ybegin (mkView 0 12 4 3) 1)) /\
  it_plus 4 2 <> it_plus 8 1.
Proof.
  destruct (distinct_cells_do_not_alias (mkView 0 12 4 3) 2 1 1 2
              ltac:(vm_compute; split; [discriminate | reflexivity])
              ltac:(vm_compute; split; [discriminate | reflexivity])
              ltac:(vm_compute; split; [discriminate | reflexivity])
              ltac:(vm_compute; split; [discriminate | reflexivity]))
    as [Hrow Hcol].
  split.
  - intros E. destruct (Hcol E) as [E2 _]. discriminate E2.
  - intros E. destruct (Hrow 4 8 eq_refl eq_refl E) as [E2 _]. discriminate E2.
Defined.

(** X11: in an attached view every position [p] of the covered part
    [[begin, begin + xSize * ySize)] that lies at most [Int.max] elements
    after [begin] is a cell: with [j] the quotient and [i] the remainder of
    [p - begin] by the row length, [j] is a row index and [i] a column
    index in range, [xbegin j] advanced by [i] is [p] and so is [ybegin i]
    after [j] increments. *)
Theorem every_covered_position_is_a_cell :
  forall (v : LexicographicalView) (p : position),
    attached v ->
    begin_ v <= p < begin_ v + xSize v * ySize v ->
    p - begin_ v <= Int.max ->
    let j := Z.quot (p - begin_ v) (xSize v) in
    let i := Z.rem (p - begin_ v) (xSize v) in
    0 <= i < xSize v /\ 0 <= j < ySize v /\
    (exists xb : x_iterator, xbegin v j = Ok xb /\ it_plus xb i = p) /\
    target (Nat.iter (Z.to_nat j) next (ybegin v i)) = p.
Proof.
  intros v p Ha Hp Hnear j i. apply attached_invariant in Ha.
  unfold xSize, ySize in *.
  pose proof Ha as [Hrange Hxs _ _ _].
  pose proof (Z.quot_rem' (p - begin_ v) (xSize_ v)) as E.
  fold j i in E.
  assert (Hi : 0 <= i < xSize_ v) by (apply Z.rem_bound_pos; lia).
  assert (Hj0 : 0 <= j) by (apply Z.quot_pos; lia).
  assert (Hj : j < ySize_ v) by nia.
  split; [exact Hi|]. split; [lia|]. split.
  - exists (begin_ v + j * xSize_ v).
    split; [apply xbegin_ok; lia|].
    unfold it_plus. lia.
  - rewrite column_cursor_target by lia. unfold spec_cell. lia.
Qed.

Lemma every_covered_position_is_a_cell_witness :
  0 <= Z.rem (6 - 0) 4 < 4 /\ 0 <= Z.quot (6 - 0) 4 < 3 /\
  (exists xb : x_iterator,
      xbegin (mkView 0 12 4 3) (Z.quot (6 - 0) 4) = Ok xb /\
      it_plus xb (Z.rem (6 - 0) 4) = 6) /\
  target (Nat.iter (Z.to_nat (Z.quot (6 - 0) 4)) next
            (ybegin (mkView 0 12 4 3) (Z.rem (6 - 0) 4))) = 6.
Proof.
  apply (every_covered_position_is_a_cell (mkView 0 12 4 3) 6
           attached_twelve_by_four).
  - vm_compute. split; [discriminate | reflexivity].
  - vm_compute. discriminate.
Defined.

(** ** The bounds of the reverse traversals *)



(** ** Writing through one cursor, reading through another *)

Section AssignmentFacts.

Context {T : Type}.

Lemma length_update (data : list T) (n : nat) (x : T) :
  List.length (update data n x) = List.length data.
Proof.
  revert n. induction data as [|y data IH]; intros [|n]; cbn; auto.
Qed.

Lemma nth_error_update_same (data : list T) (n : nat) (x : T) :
  (n < List.length data)%nat -> nth_error (update data n x) n = Some x.
Proof.
  revert n. induction data as [|y data IH]; intros [|n]; cbn; intros Hn;
    try lia; auto with arith.
Qed.

Lemma nth_error_update_other (data : list T) (n m : nat) (x : T) :
  m <> n -> nth_error (update data n x) m = nth_error data m.
Proof.
  revert n m. induction data as [|y data IH]; intros [|n] [|m]; cbn; intros Hn;
    try congruence; auto.
Qed.

Lemma write_some (data : list T) (p : position) (x : T) :
  0 <= p < Z.of_nat (List.length data) ->
  write data p x = Some (update data (Z.to_nat p) x).
Proof.
  intros Hp. unfold write.
  destruct (Z.ltb_spec p 0); [lia|].
  destruct (Nat.ltb_spec (Z.to_nat p) (List.length data)); [reflexivity | lia].
Qed.

Lemma read_update_same (data : list T) (p : position) (x : T) :
  0 <= p < Z.of_nat (List.length data) ->
  read (update data (Z.to_nat p) x) p = Some x.
Proof.
  intros Hp. unfold read.
  destruct (Z.ltb_spec p 0); [lia|].
  apply nth_error_update_same. lia.
Qed.

Lemma read_update_other (data : list T) (p q : position) (x : T) :
  0 <= p -> q <> p ->
  read (update data (Z.to_nat p) x) q = read data q.
Proof.
  intros Hp Hq. unfold read.
  destruct (Z.ltb_spec q 0); [reflexivity|].
  apply nth_error_update_other. lia.
Qed.

End AssignmentFacts.

(** X10: in an attached view lying within the underlying sequence, take
    an in-range cell whose row offset [j * xSize] is at most [Int.max].  An
    assignment through its row cursor succeeds, keeps the length of the
    sequence, and is the same assignment as the one through its column
    cursor; afterwards the column cursor of the cell reads the value
    written, and the column cursor of every other in-range cell reads what
    it read before. *)
Theorem write_through_row_read_through_column :
  forall (T : Type) (data : list T) (v : LexicographicalView) (i j : Z) (x : T),
    attached v -> within data v ->
    0 <= i < xSize v -> 0 <= j < ySize v ->
    j * xSize v <= Int.max ->
    exists (xb : x_iterator) (data' : list T),
      xbegin v j = Ok xb /\
      assign data (Nat.iter (Z.to_nat i) next xb) x = Some data' /\
      assign data (Nat.iter (Z.to_nat j) next (ybegin v i)) x = Some data' /\
      List.length data' = List.length data /\
      deref data' (Nat.iter (Z.to_nat j) next (ybegin v i)) = Some x /\
      forall i' j' : Z,
        0 <= i' < xSize v -> 0 <= j' < ySize v ->
        (i' <> i \/ j' <> j) ->
        deref data' (Nat.iter (Z.to_nat j') next (ybegin v i')) =
        deref data (Nat.iter (Z.to_nat j') next (ybegin v i')).
Proof.
  intros T data v i j x Ha Hin Hi Hj Hoff.
  pose proof (attached_invariant v Ha) as I.
  unfold xSize, ySize in *.
  pose proof (spec_cell_within v i j I Hi Hj) as Hcell.
  destruct Hin as [Hlo Hhi].
  exists (begin_ v + j * xSize_ v), (update data (Z.to_nat (spec_cell v i j)) x).
  split; [apply xbegin_ok; lia|].
  unfold assign, deref.
  rewrite row_cursor_target, !column_cursor_target by lia.
  fold (spec_cell v i j).
  split; [apply write_some; lia|].
  split; [apply write_some; lia|].
  split; [apply length_update|].
  split; [apply read_update_same; lia|].
  intros i' j' Hi' Hj' Hne.
  rewrite !column_cursor_target by lia.
  apply read_update_other; [lia|].
  intros E. apply spec_cell_injective in E; [|assumption|assumption].
  destruct E as [-> ->].
  destruct Hne as [Hne|Hne]; apply Hne; reflexivity.
Qed.

Lemma write_through_row_read_through_column_witness :
  exists data' : list Z,
    assign twelve (Nat.iter 2 next (4 : x_iterator)) 99 = Some data' /\
    deref data' (Nat.iter 1 next (ybegin (mkView 0 12 4 3) 2)) = Some 99 /\
    deref data' (Nat.iter 1 next (ybegin (mkView 0 12 4 3) 1)) =
    deref twelve (Nat.iter 1 next (ybegin (mkView 0 12 4 3) 1)).
Proof.
  destruct (write_through_row_read_through_column Z twelve (mkView 0 12 4 3) 2 1 99
              attached_twelve_by_four within_twelve
              ltac:(vm_compute; split; [discriminate | reflexivity])
              ltac:(vm_compute; split; [discriminate | reflexivity])
              ltac:(vm_compute; discriminate))
    as (xb & data' & Hxb & Hrow & _ & _ & Hread & Hframe).
  vm_compute in Hxb. injection Hxb as <-.
  exists data'. split; [exact Hrow|]. split; [exact Hread|].
  apply (Hframe 1 1).
  - vm_compute. split; [discriminate | reflexivity].
  - vm_compute. split; [discriminate | reflexivity].
  - left. discriminate.
Defined.
